(** * SubCreater: the tag-line parser and the subtitle renderer

    A shallow embedding of [core/parser.py], [core/renderer.py] and the
    settings preparation of [main.py], with the properties of the design
    specification proved (or refuted) against it.

    Modelling conventions.
    - A Python [str] is a list of Unicode code points ([N]).  Dictionary
      keys and configuration strings, which the sources write as ASCII
      literals, are Rocq strings.
    - Python [int] is [Z].  A Python [float] is kept by its value, a
      rational; every operation that yields a float is the exact
      operation followed by the rounding of the machine, which the back
      end provides ([round64]; [Binary64.binary64] is the IEEE 754
      rounding to nearest even).  [int(...)] is truncation toward zero.
      Overflow, NaN and the sign of zero are not modelled.
    - The Pillow drawing context is external.  A call to it is recorded
      as a [draw_op]; the renderer is the function from its arguments to
      the sequence of calls it issues.
    - Python dictionaries that are shared and mutated (the settings) live
      in a store indexed by object identity. *)

From Stdlib Require Import ZArith NArith QArith Qround Qabs List Bool Lia.
From Stdlib Require Import String Ascii SpecFloat Morphisms.
From stdpp Require Import base gmap strings.
Import ListNotations.

Local Open Scope Z_scope.

(* ================================================================== *)
(** * Python strings *)
(* ================================================================== *)

Module PyStr.

Definition char := N.
Definition str := list char.

(** The code points for which [str.isspace] holds on a single character;
    [str.strip()] removes exactly these. *)
Definition is_space (c : char) : bool :=
  ((9 <=? c) && (c <=? 13) || (28 <=? c) && (c <=? 32) ||
   (c =? 133) || (c =? 160) || (c =? 5760) ||
   (8192 <=? c) && (c <=? 8202) || (c =? 8232) || (c =? 8233) ||
   (c =? 8239) || (c =? 8287) || (c =? 12288))%N.

Fixpoint lstrip (s : str) : str :=
  match s with
  | [] => []
  | c :: rest => if is_space c then lstrip rest else s
  end.

Definition rstrip (s : str) : str := rev (lstrip (rev s)).

Definition strip (s : str) : str := rstrip (lstrip s).

(** [not s] for a string. *)
Definition is_empty (s : str) : bool :=
  match s with [] => true | _ => false end.

Fixpoint str_eqb (a b : str) : bool :=
  match a, b with
  | [], [] => true
  | x :: a', y :: b' => (x =? y)%N && str_eqb a' b'
  | _, _ => false
  end.

(** [s.endswith(suffix)] *)
Definition endswith (s suffix : str) : bool :=
  str_eqb (skipn (length s - length suffix) s) suffix
  && (length suffix <=? length s)%nat.

(** [s[:-2]] *)
Definition drop_last2 (s : str) : str := firstn (length s - 2) s.

(** ASCII literals of the sources. *)
Fixpoint lit (s : string) : str :=
  match s with
  | EmptyString => []
  | String a rest => N_of_ascii a :: lit rest
  end.

Definition LBRACKET : char := 91%N.
Definition RBRACKET : char := 93%N.
Definition NEWLINE : char := 10%N.
Definition CR : char := 13%N.

(** The longest prefix whose characters all satisfy [p], and what
    follows it. *)
Fixpoint span (p : char -> bool) (s : str) : str * str :=
  match s with
  | [] => ([], [])
  | c :: rest =>
      if p c then let '(a, b) := span p rest in (c :: a, b) else ([], s)
  end.

(** Text-mode reading with universal newlines: [\r\n] and a lone [\r]
    both read as [\n]. *)
Fixpoint universal_newlines (s : str) : str :=
  match s with
  | [] => []
  | c :: rest =>
      if (c =? CR)%N then
        NEWLINE :: match rest with
                   | d :: rest' =>
                       if (d =? NEWLINE)%N then universal_newlines rest'
                       else universal_newlines rest
                   | [] => []
                   end
      else c :: universal_newlines rest
  end.

(** Iterating over a text file: each line keeps its final [\n]; a last
    line without one is still yielded. *)
Fixpoint readlines_from (cur : str) (s : str) : list str :=
  match s with
  | [] => match cur with [] => [] | _ => [rev cur] end
  | c :: rest =>
      if (c =? NEWLINE)%N then rev (c :: cur) :: readlines_from [] rest
      else readlines_from (c :: cur) rest
  end.

Definition file_lines (content : str) : list str :=
  readlines_from [] (universal_newlines content).

End PyStr.

(* ================================================================== *)
(** * core/parser.py *)
(* ================================================================== *)

Module Parser.
Import PyStr.

(** The [re.match] of [parse_subtitle_line].  Its pattern is: an opening
    bracket, one or more characters other than a closing bracket
    (group 1), a closing bracket, then any run of characters other than
    a newline (group 2).  The match is anchored at the start only, so
    group 1 is the non-empty run up to the first closing bracket and
    group 2 stops at the first newline. *)
Definition re_match_tag (line : str) : option (str * str) :=
  match line with
  | c :: rest =>
      if (c =? LBRACKET)%N then
        match span (fun d => negb (d =? RBRACKET)%N) rest with
        | ((_ :: _) as tag, _ :: tail) =>
            Some (tag, fst (span (fun d => negb (d =? NEWLINE)%N) tail))
        | _ => None
        end
      else None
  | [] => None
  end.

(** [parse_subtitle_line]: [(base_tag, full_tag, text, is_translation)]
    or [None]. *)
Definition parse_subtitle_line (line : str) : option (str * str * str * bool) :=
  let line := strip line in
  if is_empty line then None
  else
    match re_match_tag line with
    | None => None
    | Some (full_tag, group2) =>
        let text := strip group2 in
        if is_empty text then None
        else
          let is_translation := endswith full_tag (lit "ch") in
          let base_tag :=
            if is_translation then drop_last2 full_tag else full_tag in
          Some (base_tag, full_tag, text, is_translation)
    end.

(** [SubtitleEntry = Dict[str, Optional[str]]] with its five keys. *)
Record SubtitleEntry := mkEntry {
  id : option str;
  full_tag_original : option str;
  original_text : option str;
  translated_text : option str;
  full_tag_translation : option str
}.

(** What [parse_subtitle_file] prints. *)
Inductive message :=
| OrphanWarning (line_number : nat) (content : str)
| FileNotFoundMsg (filepath : string)
| ParseErrorMsg (filepath : string).

(** The local variables of [parse_subtitle_file] that live across loop
    iterations, and the printed output. *)
Record pstate := mkState {
  subtitles : list SubtitleEntry;
  last_base_tag : option str;
  temp_original_text : option str;
  temp_full_tag_original : option str;
  printed : list message
}.

Definition init : pstate := mkState [] None None None [].

(** Truth value of an [Optional[str]]. *)
Definition truthy (o : option str) : bool :=
  match o with
  | Some (_ :: _) => true
  | _ => false
  end.

(** [last_base_tag == base_tag] *)
Definition opt_eqb (o : option str) (b : str) : bool :=
  match o with
  | Some a => str_eqb a b
  | None => false
  end.

(** The dictionary appended for a pending original without translation. *)
Definition standalone (s : pstate) : SubtitleEntry :=
  {| id := last_base_tag s;
     full_tag_original := temp_full_tag_original s;
     original_text := temp_original_text s;
     translated_text := None;
     full_tag_translation := None |}.

Definition pending_guard (s : pstate) : bool :=
  truthy (temp_original_text s) && truthy (last_base_tag s)
  && truthy (temp_full_tag_original s).

(** One iteration of the [for line_number, line_content in enumerate(f, 1)]
    loop. *)
Definition step (s : pstate) (line_number : nat) (line_content : str) : pstate :=
  match parse_subtitle_line line_content with
  | None =>
      if pending_guard s then
        {| subtitles := subtitles s ++ [standalone s];
           last_base_tag := None;
           temp_original_text := None;
           temp_full_tag_original := None;
           printed := printed s |}
      else s
  | Some (base_tag, full_tag, text, is_translation) =>
      if negb is_translation then
        {| subtitles :=
             if pending_guard s then subtitles s ++ [standalone s]
             else subtitles s;
           last_base_tag := Some base_tag;
           temp_original_text := Some text;
           temp_full_tag_original := Some full_tag;
           printed := printed s |}
      else if truthy (temp_original_text s)
              && opt_eqb (last_base_tag s) base_tag
              && truthy (temp_full_tag_original s) then
        {| subtitles :=
             subtitles s ++
             [ {| id := Some base_tag;
                  full_tag_original := temp_full_tag_original s;
                  original_text := temp_original_text s;
                  translated_text := Some text;
                  full_tag_translation := Some full_tag |} ];
           last_base_tag := None;
           temp_original_text := None;
           temp_full_tag_original := None;
           printed := printed s |}
      else
        {| subtitles := subtitles s;
           last_base_tag := last_base_tag s;
           temp_original_text := temp_original_text s;
           temp_full_tag_original := temp_full_tag_original s;
           printed :=
             printed s ++ [OrphanWarning line_number (strip line_content)] |}
  end.

(** The loop over the remaining lines, numbered from [line_number]. *)
Fixpoint loop (s : pstate) (line_number : nat) (lines : list str) : pstate :=
  match lines with
  | [] => s
  | l :: rest => loop (step s line_number l) (S line_number) rest
  end.

(** The check after the loop. *)
Definition finish (s : pstate) : list SubtitleEntry :=
  if pending_guard s then subtitles s ++ [standalone s] else subtitles s.

(** The body of the [with] block run on the lines of the file. *)
Definition parse_lines (lines : list str) : list SubtitleEntry :=
  finish (loop init 1 lines).

(** What opening and reading the file gives. *)
Inductive file_result :=
| NoSuchFile
| Unreadable
| Content (text : str).

(** [parse_subtitle_file]: the entries returned and the text printed. *)
Definition parse_subtitle_file (fs : string -> file_result) (filepath : string)
  : list SubtitleEntry * list message :=
  match fs filepath with
  | NoSuchFile => ([], [FileNotFoundMsg filepath])
  | Unreadable => ([], [ParseErrorMsg filepath])
  | Content text =>
      let s := loop init 1 (file_lines text) in
      (finish s, printed s)
  end.

End Parser.

(* ================================================================== *)
(** * Python dictionaries as shared objects *)
(* ================================================================== *)

Module PyObj.

(** Object identity of a dictionary. *)
Definition loc := positive.

(** The values the settings dictionaries hold. *)
Inductive val :=
| VBool (b : bool)
| VInt (z : Z)
| VStr (s : string)
| VTuple (t : list Z)
| VDict (l : loc).

Abbreviation dict := (gmap string val).

(** The dictionaries that exist, by identity. *)
Abbreviation store := (gmap loc dict).

Definition deref (h : store) (l : loc) : dict := default ∅ (h !! l).

(** [d.copy()]: a new dictionary with the same keys and the same values;
    a nested dictionary is shared, not copied. *)
Definition dict_copy (h : store) (l : loc) : store * loc :=
  let l' := fresh (dom h) in
  (<[l' := deref h l]> h, l').

(** [target.update(source)] *)
Definition dict_update (h : store) (target source : loc) : store :=
  <[target := deref h source ∪ deref h target]> h.

(** [del d[key]] *)
Definition dict_del (h : store) (l : loc) (key : string) : store :=
  <[l := delete key (deref h l)]> h.

(** [key in d] *)
Definition dict_has (h : store) (l : loc) (key : string) : bool :=
  bool_decide (is_Some (deref h l !! key)).

(** Truth value of an [Optional[Dict]]: [None] and [{}] are false. *)
Definition dict_truthy (h : store) (o : option loc) : bool :=
  match o with
  | Some l => negb (bool_decide (deref h l = ∅))
  | None => false
  end.

End PyObj.

(* ================================================================== *)
(** * core/renderer.py *)
(* ================================================================== *)

Module Renderer.
Import PyStr.

(** ** Python numbers *)

(** A value that is a Python [int] or a Python [float]. *)
Inductive num :=
| PyInt (z : Z)
| PyFloat (q : Q).

(** [float(z)], as it happens when an int meets a float. *)
Definition float_of_int (rnd : Q -> Q) (z : Z) : Q := rnd (inject_Z z).

Definition to_float (rnd : Q -> Q) (a : num) : Q :=
  match a with
  | PyInt z => float_of_int rnd z
  | PyFloat q => q
  end.

(** [a - b] *)
Definition num_sub (rnd : Q -> Q) (a b : num) : num :=
  match a, b with
  | PyInt x, PyInt y => PyInt (x - y)
  | _, _ => PyFloat (rnd (to_float rnd a - to_float rnd b)%Q)
  end.

(** [a + b] *)
Definition num_add (rnd : Q -> Q) (a b : num) : num :=
  match a, b with
  | PyInt x, PyInt y => PyInt (x + y)
  | _, _ => PyFloat (rnd (to_float rnd a + to_float rnd b)%Q)
  end.

(** [a * b] *)
Definition num_mul (rnd : Q -> Q) (a b : num) : num :=
  match a, b with
  | PyInt x, PyInt y => PyInt (x * y)
  | _, _ => PyFloat (rnd (to_float rnd a * to_float rnd b)%Q)
  end.

(** [a / b] on two ints: the correctly rounded quotient,
    [ZeroDivisionError] as [None]. *)
Definition truediv (rnd : Q -> Q) (a b : Z) : option Q :=
  if b =? 0 then None else Some (rnd (inject_Z a / inject_Z b)%Q).

(** [int(q)] on a float: truncation toward zero. *)
Definition trunc (q : Q) : Z :=
  if Qle_bool 0 q then Qfloor q else Qceiling q.

(** [int(a)] *)
Definition py_int (a : num) : Z :=
  match a with
  | PyInt z => z
  | PyFloat q => trunc q
  end.

(** [range(lo, hi)] *)
Definition range (lo hi : Z) : list Z :=
  map (fun k => lo + Z.of_nat k) (seq 0 (Z.to_nat (hi - lo))).

(** ** Data *)

(** A colour tuple. *)
Definition color := list Z.

(** A loaded font: the file it came from and its pixel size. *)
Record font := mkFont { font_file : string; font_px : Z }.

(** An effects dictionary.  A field is [None] when the key is absent;
    the values have the types they have in [DEFAULT_SETTINGS]. *)
Record effects := mkEffects {
  shadow_on : option bool;
  shadow_offset_x : option Z;
  shadow_offset_y : option Z;
  shadow_color : option color;
  outline_on : option bool;
  outline_width : option Z;
  outline_color : option color;
  gradient_on : option bool;
  gradient_color_start : option color;
  gradient_color_end : option color
}.

(** The empty dictionary [{}]. *)
Definition no_effects : effects :=
  mkEffects None None None None None None None None None None.

(** [current_settings] as [render_subtitle_image] reads it, the values
    having the types they have in [DEFAULT_SETTINGS]. *)
Record settings := mkSettings {
  resolution : string;
  font_path_original : string;
  font_size_original : Z;
  font_color_original : color;
  font_path_translation : string;
  font_size_translation : Z;
  font_color_translation : color;
  text_align : string;
  custom_x_original : Z;
  custom_y_original : Z;
  custom_x_translation : Z;
  custom_y_translation : Z;
  output_directory : string;
  effects_original : effects;
  effects_translation : effects
}.

Definition default_settings : settings :=
  {| resolution := "1080p";
     font_path_original := "arial.ttf";
     font_size_original := 60;
     font_color_original := [255; 255; 0; 255];
     font_path_translation := "arial.ttf";
     font_size_translation := 40;
     font_color_translation := [220; 220; 220; 255];
     text_align := "center";
     custom_x_original := 640;
     custom_y_original := 800;
     custom_x_translation := 640;
     custom_y_translation := 880;
     output_directory := "output_images";
     effects_original :=
       {| shadow_on := Some true;
          shadow_offset_x := Some 3;
          shadow_offset_y := Some 3;
          shadow_color := Some [0; 0; 0; 128];
          outline_on := Some true;
          outline_width := Some 2;
          outline_color := Some [0; 0; 0; 255];
          gradient_on := Some false;
          gradient_color_start := Some [255; 105; 180; 255];
          gradient_color_end := Some [255; 255; 255; 255] |};
     effects_translation :=
       {| shadow_on := Some true;
          shadow_offset_x := Some 2;
          shadow_offset_y := Some 2;
          shadow_color := Some [0; 0; 0; 128];
          outline_on := Some true;
          outline_width := Some 1;
          outline_color := Some [0; 0; 0; 255];
          gradient_on := Some false;
          gradient_color_start := Some [200; 200; 200; 255];
          gradient_color_end := Some [250; 250; 250; 255] |} |}.

Definition RESOLUTIONS (name : string) : option (Z * Z) :=
  if String.eqb name "720p" then Some (1280, 720)
  else if String.eqb name "1080p" then Some (1920, 1080)
  else None.

(** ** The drawing back end *)

(** What the renderer needs from the machine, Pillow and the file
    system. *)
Record backend := mkBackend {
  (** the rounding of the machine's float arithmetic *)
  round64 : Q -> Q;
  (** [ImageFont.truetype(path, size)] succeeds *)
  font_available : string -> bool;
  (** [draw.textbbox((0,0), text, font=font)]: left, top, right, bottom *)
  textbbox : str -> font -> Z * Z * Z * Z;
  (** the output directory can be made and the image saved *)
  can_save : string -> bool
}.

(** A call that changes the pixels of the canvas. *)
Inductive draw_op :=
| DrawText (xy : Z * Z) (text : str) (f : font) (fill : color)
    (** [draw.text(xy, text, font=f, fill=fill)] *)
| PasteGradient (box : Z * Z * Z * Z) (rows : list color)
                (mask_text : str) (mask_xy : Z * Z) (f : font).
    (** [draw.im.paste(gradient_image.im, box, mask_image.im)]: the
        gradient image has one colour per scanline, the mask is
        [mask_text] drawn at [mask_xy] on a black image of the size of
        [box] *)

(** How a call ended. *)
Inductive outcome := Returned | Raised.

(** ** get_font *)

Definition get_font (bk : backend) (font_path : string) (font_size : Z)
  : option font :=
  if font_available bk font_path then Some (mkFont font_path font_size)
  else if font_available bk "arial.ttf" then Some (mkFont "arial.ttf" font_size)
  else if font_available bk "DejaVuSans.ttf"
       then Some (mkFont "DejaVuSans.ttf" font_size)
  else None.

(** ** draw_text_with_effects *)

(** [if len(c) == 3: c = c + (alpha,)] *)
Definition with_alpha (c : color) (alpha : Z) : color :=
  if (length c =? 3)%nat then c ++ [alpha] else c.

(** The test of the outline loop body. *)
Definition outline_test (outline_w dx dy : Z) : bool :=
  (Z.abs dx =? outline_w) || (Z.abs dy =? outline_w)
  || ((Z.abs dx <? outline_w) && (Z.abs dy <? outline_w)
      && (dx * dx + dy * dy >=? (outline_w - 1) * (outline_w - 1))).

(** The offsets at which the two nested outline loops draw, in order. *)
Definition outline_offsets (outline_w : Z) : list (Z * Z) :=
  flat_map
    (fun dx =>
       flat_map
         (fun dy => if outline_test outline_w dx dy then [(dx, dy)] else [])
         (range (- outline_w) (outline_w + 1)))
    (range (- outline_w) (outline_w + 1)).

(** The block under [# Outline]. *)
Definition outline_layer (text : str) (position : Z * Z) (f : font)
    (eff : effects) : list draw_op :=
  let '(x, y) := position in
  if default false (outline_on eff) && (default 0 (outline_width eff) >? 0) then
    let outline_w := default 0 (outline_width eff) in
    let outline_c :=
      with_alpha (default [0; 0; 0; 255] (outline_color eff)) 255 in
    map (fun d => DrawText (x + fst d, y + snd d) text f outline_c)
        (outline_offsets outline_w)
  else [].

(** The block under [# Shadow]. *)
Definition shadow_layer (text : str) (position : Z * Z) (f : font)
    (eff : effects) : list draw_op :=
  let '(x, y) := position in
  if default false (shadow_on eff) then
    let offset_x := default 0 (shadow_offset_x eff) in
    let offset_y := default 0 (shadow_offset_y eff) in
    let shadow_c :=
      with_alpha (default [0; 0; 0; 128] (shadow_color eff)) 128 in
    if negb (offset_x =? 0) || negb (offset_y =? 0) then
      [DrawText (x + offset_x, y + offset_y) text f shadow_c]
    else []
  else [].

(** One channel of one scanline:
    [int(color_start[k] * (1 - ratio) + color_end[k] * ratio)]. *)
Definition gradient_channel (rnd : Q -> Q) (color_start color_end : color)
    (ratio : Q) (k : nat) : option Z :=
  match nth_error color_start k, nth_error color_end k with
  | Some s, Some e =>
      Some (py_int
              (num_add rnd
                 (num_mul rnd (PyInt s)
                    (num_sub rnd (PyInt 1) (PyFloat ratio)))
                 (num_mul rnd (PyInt e) (PyFloat ratio))))
  | _, _ => None
  end.

(** The colour of scanline [i]: the body of the [for i in
    range(text_height)] loop up to the [line] call. *)
Definition gradient_row (rnd : Q -> Q) (color_start color_end : color)
    (text_height i : Z) : option color :=
  match truediv rnd i (Z.max 1 (text_height - 1)) with
  | None => None
  | Some ratio =>
      match gradient_channel rnd color_start color_end ratio 0,
            gradient_channel rnd color_start color_end ratio 1,
            gradient_channel rnd color_start color_end ratio 2,
            gradient_channel rnd color_start color_end ratio 3 with
      | Some r, Some g, Some b, Some a => Some [r; g; b; a]
      | _, _, _, _ => None
      end
  end.

(** All scanlines, or [None] if one of them raises. *)
Fixpoint gradient_rows_of (rnd : Q -> Q) (color_start color_end : color)
    (text_height : Z) (rows : list Z) : option (list color) :=
  match rows with
  | [] => Some []
  | i :: rest =>
      match gradient_row rnd color_start color_end text_height i with
      | None => None
      | Some c =>
          match gradient_rows_of rnd color_start color_end text_height rest
          with
          | None => None
          | Some cs => Some (c :: cs)
          end
      end
  end.

Definition gradient_image (rnd : Q -> Q) (color_start color_end : color)
    (text_height : Z) : option (list color) :=
  gradient_rows_of rnd color_start color_end text_height
    (range 0 text_height).

(** The block under [# Main text].  The bounding box is taken from
    [textbbox]; the [textsize] fallback for a Pillow without [textbbox]
    is not modelled. *)
Definition fill_layer (bk : backend) (text : str) (position : Z * Z)
    (f : font) (fill_color : color) (eff : effects)
  : list draw_op * outcome :=
  if default false (gradient_on eff) then
    let color_start :=
      with_alpha (default [255; 0; 0; 255] (gradient_color_start eff)) 255 in
    let color_end :=
      with_alpha (default [0; 0; 255; 255] (gradient_color_end eff)) 255 in
    let '(bbox0, bbox1, bbox2, bbox3) := textbbox bk text f in
    let text_width := bbox2 - bbox0 in
    let text_height := bbox3 - bbox1 in
    let text_internal_offset_x := bbox0 in
    let text_internal_offset_y := bbox1 in
    if (text_width <=? 0) || (text_height <=? 0) then ([], Returned)
    else
      match gradient_image (round64 bk) color_start color_end text_height
      with
      | None => ([], Raised)
      | Some rows =>
          let paste_x := fst position + text_internal_offset_x in
          let paste_y := snd position + text_internal_offset_y in
          ([PasteGradient
              (paste_x, paste_y, paste_x + text_width, paste_y + text_height)
              rows text
              (- text_internal_offset_x, - text_internal_offset_y) f],
           Returned)
      end
  else ([DrawText position text f fill_color], Returned).

(** [draw_text_with_effects]: the calls made on the canvas, in order, and
    whether the function returned. *)
Definition draw_text_with_effects (bk : backend) (text : str)
    (position : Z * Z) (f : font) (fill_color : color) (eff : effects)
  : list draw_op * outcome :=
  let '(fill_ops, result) := fill_layer bk text position f fill_color eff in
  (outline_layer text position f eff
     ++ shadow_layer text position f eff
     ++ fill_ops,
   result).

(** ** render_subtitle_image *)

(** Truth value of [translated_text : Optional[str]]. *)
Definition has_text (t : option str) : bool :=
  match t with
  | Some (_ :: _) => true
  | _ => false
  end.

(** The [if align_mode == ...] chain that sets [pil_x_original] (and,
    with the translation's variables, [pil_x_translation]). *)
Definition aligned_x (rnd : Q -> Q) (align_mode : string)
    (user_x text_width : Z) : num :=
  if String.eqb align_mode "left" then PyInt user_x
  else if String.eqb align_mode "center" then
    num_sub rnd (PyInt user_x) (PyFloat (rnd (inject_Z text_width / 2)%Q))
  else if String.eqb align_mode "right" then
    num_sub rnd (PyInt user_x) (PyInt text_width)
  else PyInt user_x.

(** [Warning: Unknown text_align mode ...] is printed. *)
Definition align_warned (align_mode : string) : bool :=
  negb (String.eqb align_mode "left" || String.eqb align_mode "center"
        || String.eqb align_mode "right").

(** The position handed to [draw_text_with_effects] for the original
    text: [(int(x_original), int(y_pos_original))]. *)
Definition position_original (bk : backend) (cs : settings) (img_height : Z)
    (original_text : str) (font_original : font) : Z * Z :=
  let '(bbox0, bbox1, bbox2, bbox3) :=
    textbbox bk original_text font_original in
  let text_width_original := bbox2 - bbox0 in
  let text_height_original := bbox3 - bbox1 in
  let align_mode := text_align cs in
  let user_x_original := custom_x_original cs in
  let user_y_original_bottom_edge := custom_y_original cs in
  let pil_y_original_top_edge :=
    img_height - user_y_original_bottom_edge - text_height_original in
  let pil_x_original :=
    aligned_x (round64 bk) align_mode user_x_original text_width_original in
  (py_int pil_x_original, py_int (PyInt pil_y_original_top_edge)).

(** The same for the translation; [(0, 0)] is kept when there is no
    translated text. *)
Definition position_translation (bk : backend) (cs : settings) (img_height : Z)
    (translated_text : option str) (font_translation : font) : Z * Z :=
  match translated_text with
  | Some ((_ :: _) as text) =>
      let '(bbox0, bbox1, bbox2, bbox3) :=
        textbbox bk text font_translation in
      let text_width_translation := bbox2 - bbox0 in
      let text_height_translation := bbox3 - bbox1 in
      let align_mode := text_align cs in
      let user_x_translation := custom_x_translation cs in
      let user_y_translation_bottom_edge := custom_y_translation cs in
      let pil_y_translation_top_edge :=
        img_height - user_y_translation_bottom_edge
        - text_height_translation in
      let pil_x_translation :=
        aligned_x (round64 bk) align_mode user_x_translation
          text_width_translation in
      (py_int pil_x_translation, py_int (PyInt pil_y_translation_top_edge))
  | _ => (py_int (PyInt 0), py_int (PyInt 0))
  end.

(** A finished image: the canvas size, the calls made on it and where it
    was saved (directory and base name). *)
Record rendering := mkRendering {
  canvas_size : Z * Z;
  drawn : list draw_op;
  saved_in : string;
  saved_as : str
}.

(** The [try] block of [render_subtitle_image]; [None] is the
    [return None] of the two [except] clauses. *)
Definition render_try (bk : backend) (original_text : str)
    (translated_text : option str) (filename_base : str) (cs : settings)
  : option rendering :=
  match RESOLUTIONS (resolution cs) with
  | None => None
  | Some (img_width, img_height) =>
    match get_font bk (font_path_original cs) (font_size_original cs),
          get_font bk (font_path_translation cs) (font_size_translation cs) with
    | Some font_original, Some font_translation =>
        let pos_original :=
          position_original bk cs img_height original_text font_original in
        let pos_translation :=
          position_translation bk cs img_height translated_text
            font_translation in
        match draw_text_with_effects bk original_text pos_original
                font_original (font_color_original cs) (effects_original cs) with
        | (_, Raised) => None
        | (ops_original, Returned) =>
            match
              (match translated_text with
               | Some ((_ :: _) as text) =>
                   draw_text_with_effects bk text pos_translation
                     font_translation (font_color_translation cs)
                     (effects_translation cs)
               | _ => ([], Returned)
               end) with
            | (_, Raised) => None
            | (ops_translation, Returned) =>
                if can_save bk (output_directory cs) then
                  Some {| canvas_size := (img_width, img_height);
                          drawn := ops_original ++ ops_translation;
                          saved_in := output_directory cs;
                          saved_as := filename_base |}
                else None
            end
        end
    | _, _ => None
    end
  end.

(** ** The settings dictionaries *)

Import PyObj.

(** The module-level dictionary and its two nested effects
    dictionaries. *)
Definition DEFAULT_SETTINGS : loc := 1%positive.
Definition DEFAULT_EFFECTS_ORIGINAL : loc := 2%positive.
Definition DEFAULT_EFFECTS_TRANSLATION : loc := 3%positive.

Definition default_effects_original_dict : dict :=
  list_to_map
    [("shadow_on", VBool true); ("shadow_offset_x", VInt 3);
     ("shadow_offset_y", VInt 3); ("shadow_color", VTuple [0; 0; 0; 128]);
     ("outline_on", VBool true); ("outline_width", VInt 2);
     ("outline_color", VTuple [0; 0; 0; 255]); ("gradient_on", VBool false);
     ("gradient_color_start", VTuple [255; 105; 180; 255]);
     ("gradient_color_end", VTuple [255; 255; 255; 255]);
     ("gradient_direction", VStr "vertical")].

Definition default_effects_translation_dict : dict :=
  list_to_map
    [("shadow_on", VBool true); ("shadow_offset_x", VInt 2);
     ("shadow_offset_y", VInt 2); ("shadow_color", VTuple [0; 0; 0; 128]);
     ("outline_on", VBool true); ("outline_width", VInt 1);
     ("outline_color", VTuple [0; 0; 0; 255]); ("gradient_on", VBool false);
     ("gradient_color_start", VTuple [200; 200; 200; 255]);
     ("gradient_color_end", VTuple [250; 250; 250; 255]);
     ("gradient_direction", VStr "vertical")].

Definition default_settings_dict : dict :=
  list_to_map
    [("resolution", VStr "1080p");
     ("font_path_original", VStr "arial.ttf");
     ("font_size_original", VInt 60);
     ("font_color_original", VTuple [255; 255; 0; 255]);
     ("font_path_translation", VStr "arial.ttf");
     ("font_size_translation", VInt 40);
     ("font_color_translation", VTuple [220; 220; 220; 255]);
     ("text_align", VStr "center");
     ("position_y_offset", VInt (-100));
     ("line_spacing", VInt 10);
     ("custom_x_original", VInt 640);
     ("custom_y_original", VInt 800);
     ("custom_x_translation", VInt 640);
     ("custom_y_translation", VInt 880);
     ("output_directory", VStr "output_images");
     ("effects_original", VDict DEFAULT_EFFECTS_ORIGINAL);
     ("effects_translation", VDict DEFAULT_EFFECTS_TRANSLATION)].

(** The dictionaries that exist once the module is loaded. *)
Definition module_store : store :=
  <[DEFAULT_SETTINGS := default_settings_dict]>
    (<[DEFAULT_EFFECTS_ORIGINAL := default_effects_original_dict]>
       (<[DEFAULT_EFFECTS_TRANSLATION := default_effects_translation_dict]> ∅)).

(** Reading a key that must be there ([d[key]]). *)
Definition get_str (d : dict) (key : string) : option string :=
  match d !! key with Some (VStr s) => Some s | _ => None end.

Definition get_int (d : dict) (key : string) : option Z :=
  match d !! key with Some (VInt z) => Some z | _ => None end.

Definition get_tuple (d : dict) (key : string) : option color :=
  match d !! key with Some (VTuple t) => Some t | _ => None end.

(** Reading a key that may be absent ([d.get(key, ...)]): [Some None]
    when it is. *)
Definition find_bool (d : dict) (key : string) : option (option bool) :=
  match d !! key with
  | None => Some None
  | Some (VBool b) => Some (Some b)
  | Some _ => None
  end.

Definition find_int (d : dict) (key : string) : option (option Z) :=
  match d !! key with
  | None => Some None
  | Some (VInt z) => Some (Some z)
  | Some _ => None
  end.

Definition find_tuple (d : dict) (key : string) : option (option color) :=
  match d !! key with
  | None => Some None
  | Some (VTuple t) => Some (Some t)
  | Some _ => None
  end.

Definition effects_of_dict (e : dict) : option effects :=
  s_on ← find_bool e "shadow_on";
  s_x ← find_int e "shadow_offset_x";
  s_y ← find_int e "shadow_offset_y";
  s_c ← find_tuple e "shadow_color";
  o_on ← find_bool e "outline_on";
  o_w ← find_int e "outline_width";
  o_c ← find_tuple e "outline_color";
  g_on ← find_bool e "gradient_on";
  g_s ← find_tuple e "gradient_color_start";
  g_e ← find_tuple e "gradient_color_end";
  Some (mkEffects s_on s_x s_y s_c o_on o_w o_c g_on g_s g_e).

(** [current_settings.get(key, {})] for an effects key. *)
Definition find_effects (h : store) (d : dict) (key : string) : option effects :=
  match d !! key with
  | None => Some no_effects
  | Some (VDict l) => effects_of_dict (deref h l)
  | Some _ => None
  end.

Definition settings_of_dict (h : store) (d : dict) : option settings :=
  res ← get_str d "resolution";
  fp_o ← get_str d "font_path_original";
  fs_o ← get_int d "font_size_original";
  fc_o ← get_tuple d "font_color_original";
  fp_t ← get_str d "font_path_translation";
  fs_t ← get_int d "font_size_translation";
  fc_t ← get_tuple d "font_color_translation";
  align ← get_str d "text_align";
  x_o ← find_int d "custom_x_original";
  y_o ← find_int d "custom_y_original";
  x_t ← find_int d "custom_x_translation";
  y_t ← find_int d "custom_y_translation";
  out ← get_str d "output_directory";
  e_o ← find_effects h d "effects_original";
  e_t ← find_effects h d "effects_translation";
  Some (mkSettings res fp_o fs_o fc_o fp_t fs_t fc_t align
          (default 0 x_o) (default 0 y_o) (default 0 x_t) (default 0 y_t)
          out e_o e_t).

(** [render_subtitle_image]: the dictionaries after the call and the
    image, if one was saved.  The first three statements build
    [current_settings]; the [try] block reads it. *)
Definition render_subtitle_image (bk : backend) (h : store)
    (original_text : str) (translated_text : option str)
    (filename_base : str) (settings : option loc)
  : store * option rendering :=
  let '(h1, current_settings) := dict_copy h DEFAULT_SETTINGS in
  let h2 :=
    match settings with
    | Some l =>
        if dict_truthy h1 settings then dict_update h1 current_settings l
        else h1
    | None => h1
    end in
  (h2,
   match settings_of_dict h2 (deref h2 current_settings) with
   | Some cs =>
       render_try bk original_text translated_text filename_base cs
   | None => None
   end).

End Renderer.

(* ================================================================== *)
(** * main.py *)
(* ================================================================== *)

Module Main.
Import PyStr PyObj.

(** What [process_subtitles] reaches outside the program. *)
Record world := mkWorld {
  files : string -> Parser.file_result;
  path_exists : string -> bool;
  makedirs_ok : string -> bool;
  pillow : Renderer.backend;
  (** [core.utils.sanitize_filename] *)
  sanitize_filename : str -> str
}.

(** One of the two blocks under [# Deep merge for effects if present]:
    [render_settings[key].update(custom_settings[key])] and
    [del custom_settings[key]].  [update] raises unless it is called on
    a dictionary with a dictionary or an empty sequence. *)
Definition merge_effects (key : string) (h : store)
    (render_settings custom_settings : loc) : store * Renderer.outcome :=
  if dict_has h custom_settings key && dict_has h render_settings key then
    match deref h render_settings !! key, deref h custom_settings !! key with
    | Some (VDict target), Some (VDict source) =>
        (dict_del (dict_update h target source) custom_settings key,
         Renderer.Returned)
    | Some (VDict _), Some (VTuple []) =>
        (dict_del h custom_settings key, Renderer.Returned)
    | Some (VDict _), Some (VStr EmptyString) =>
        (dict_del h custom_settings key, Renderer.Returned)
    | _, _ => (h, Renderer.Raised)
    end
  else (h, Renderer.Returned).

(** The statements under [# Prepare settings for renderer]: the
    dictionaries afterwards and [render_settings], or [None] if an
    exception left the function. *)
Definition prepare_settings (h : store) (custom_settings : option loc)
  : store * option loc :=
  let '(h1, render_settings) := dict_copy h Renderer.DEFAULT_SETTINGS in
  match custom_settings with
  | Some c =>
      if dict_truthy h1 custom_settings then
        match merge_effects "effects_original" h1 render_settings c with
        | (h2, Renderer.Raised) => (h2, None)
        | (h2, Renderer.Returned) =>
            match merge_effects "effects_translation" h2 render_settings c with
            | (h3, Renderer.Raised) => (h3, None)
            | (h3, Renderer.Returned) =>
                (dict_update h3 render_settings c, Some render_settings)
            end
        end
      else (h1, Some render_settings)
  | None => (h1, Some render_settings)
  end.

(** The [for i, entry in enumerate(parsed_entries)] loop. *)
Fixpoint render_entries (w : world) (h : store)
    (entries : list Parser.SubtitleEntry) (render_settings : loc)
  : store * list (option Renderer.rendering) :=
  match entries with
  | [] => (h, [])
  | entry :: rest =>
      match Parser.original_text entry with
      | Some ((_ :: _) as original_text) =>
          let tag :=
            match Parser.full_tag_original entry with
            | Some t => t
            | None => lit "None"
            end in
          let filename_source_text :=
            [LBRACKET] ++ tag ++ [RBRACKET] ++ original_text in
          let base_filename := sanitize_filename w filename_source_text in
          let '(h1, image) :=
            Renderer.render_subtitle_image (pillow w) h original_text
              (Parser.translated_text entry) base_filename
              (Some render_settings) in
          let '(h2, images) := render_entries w h1 rest render_settings in
          (h2, image :: images)
      | _ => render_entries w h rest render_settings
      end
  end.

(** [process_subtitles]: the dictionaries afterwards, the result of each
    render call, and whether the function returned. *)
Definition process_subtitles (w : world) (h : store)
    (subtitle_filepath : string) (custom_settings : option loc)
  : store * list (option Renderer.rendering) * Renderer.outcome :=
  if negb (path_exists w subtitle_filepath) then (h, [], Renderer.Returned)
  else
    match fst (Parser.parse_subtitle_file (files w) subtitle_filepath) with
    | [] => (h, [], Renderer.Returned)
    | parsed_entries =>
        let source :=
          match custom_settings with
          | Some c =>
              if dict_truthy h custom_settings then c
              else Renderer.DEFAULT_SETTINGS
          | None => Renderer.DEFAULT_SETTINGS
          end in
        match
          (match deref h source !! "output_directory" with
           | None => Some "output_images"%string
           | Some (VStr s) => Some s
           | Some _ => None
           end) with
        | None => (h, [], Renderer.Raised)
        | Some output_dir =>
            if negb (path_exists w output_dir)
               && negb (makedirs_ok w output_dir)
            then (h, [], Renderer.Returned)
            else
              match prepare_settings h custom_settings with
              | (h1, None) => (h1, [], Renderer.Raised)
              | (h1, Some render_settings) =>
                  let '(h2, images) :=
                    render_entries w h1 parsed_entries render_settings in
                  (h2, images, Renderer.Returned)
              end
        end
    end.

End Main.

(* ================================================================== *)
(** * Lines as they are written in a subtitle file *)
(* ================================================================== *)

Module Lines.
Import PyStr.

(** The raw line [lead [T]X eol]: a tag in brackets, the text, and
    white space around (the indentation and the end of line). *)
Definition raw_line (lead T X eol : str) : str :=
  lead ++ [LBRACKET] ++ T ++ [RBRACKET] ++ X ++ eol.

(** Only white space. *)
Definition blank (s : str) : Prop := Forall (fun c => is_space c = true) s.

(** The lines the specification calls NoMatch: blank, not conforming to
    the tag grammar (no opening bracket, no closing bracket, empty tag),
    or with no text left after trimming. *)
Inductive nomatch_line : str -> Prop :=
| NM_blank (l : str) : blank l -> nomatch_line l
| NM_no_bracket (lead : str) (c : char) (rest : str) :
    blank lead -> is_space c = false -> c <> LBRACKET ->
    nomatch_line (lead ++ c :: rest)
| NM_unclosed (lead rest : str) :
    blank lead -> ~ In RBRACKET rest ->
    nomatch_line (lead ++ LBRACKET :: rest)
| NM_empty_tag (lead rest : str) :
    blank lead -> nomatch_line (lead ++ LBRACKET :: RBRACKET :: rest)
| NM_empty_text (lead T X eol : str) :
    blank lead -> blank eol -> ~ In RBRACKET T -> blank X ->
    nomatch_line (raw_line lead T X eol).

(** The translation marker. *)
Definition ch : str := lit "ch".

(** The pending-original slot of the parser is empty. *)
Definition pending_empty (s : Parser.pstate) : Prop :=
  Parser.last_base_tag s = None
  /\ Parser.temp_original_text s = None
  /\ Parser.temp_full_tag_original s = None.

(** The pending-original slot holds the original line [[T]X]. *)
Definition holds_original (s : Parser.pstate) (T X : str) : Prop :=
  T <> [] /\ X <> []
  /\ Parser.last_base_tag s = Some T
  /\ Parser.temp_original_text s = Some X
  /\ Parser.temp_full_tag_original s = Some T.

(** The two states have the same pending slot. *)
Definition same_pending (s s' : Parser.pstate) : Prop :=
  Parser.last_base_tag s = Parser.last_base_tag s'
  /\ Parser.temp_original_text s = Parser.temp_original_text s'
  /\ Parser.temp_full_tag_original s = Parser.temp_full_tag_original s'.

(** Every state of the loop has an empty slot or holds an original. *)
Definition slot_ok (s : Parser.pstate) : Prop :=
  pending_empty s \/ exists T X, holds_original s T X.

(** The state with one more entry and an empty slot. *)
Definition flushed (s : Parser.pstate) (e : Parser.SubtitleEntry)
  : Parser.pstate :=
  Parser.mkState (Parser.subtitles s ++ [e]) None None None (Parser.printed s).

(** The entry of an original without translation. *)
Definition standalone_entry (T X : str) : Parser.SubtitleEntry :=
  Parser.mkEntry (Some T) (Some T) (Some X) None None.

(** The entry of an original [[T]X] paired with [[Tch]Y]. *)
Definition paired_entry (T X Y : str) : Parser.SubtitleEntry :=
  Parser.mkEntry (Some T) (Some T) (Some X) (Some Y) (Some (T ++ ch)).

End Lines.

(* ================================================================== *)
(** * The layout and compositing rules in the words of the specification *)
(* ================================================================== *)

Module RenderSpec.
Import PyStr Renderer.

(** Width and height of the ink box the back end measures. *)
Definition ink_width (bk : backend) (text : str) (f : font) : Z :=
  let '(bbox0, _, bbox2, _) := textbbox bk text f in bbox2 - bbox0.

Definition ink_height (bk : backend) (text : str) (f : font) : Z :=
  let '(_, bbox1, _, bbox3) := textbbox bk text f in bbox3 - bbox1.

(** The placement law: [draw_y = H - ay - h]; [draw_x] is [ax] for left,
    within one unit of [ax - w/2] for center, [ax - w] for right, and
    that of left for any other mode. *)
Definition placed (align : string) (H ax ay w h : Z) (xy : Z * Z) : Prop :=
  snd xy = H - ay - h
  /\ (align = "left"%string -> fst xy = ax)
  /\ (align = "center"%string ->
      (Qabs (inject_Z (fst xy) - (inject_Z ax - inject_Z w / 2)) < 1)%Q
      /\ fst xy = Z.quot (2 * ax - w) 2)
  /\ (align = "right"%string -> fst xy = ax - w)
  /\ (align <> "left"%string -> align <> "center"%string ->
      align <> "right"%string -> fst xy = ax).

(** The offsets of the outline rule. *)
Definition on_outline (W dx dy : Z) : Prop :=
  Z.abs dx <= W /\ Z.abs dy <= W
  /\ (Z.abs dx = W \/ Z.abs dy = W
      \/ (Z.abs dx < W /\ Z.abs dy < W
          /\ dx * dx + dy * dy >= (W - 1) * (W - 1))).

(** The rounding leaves [q] as it is: the float operation that yields
    [q] is exact. *)
Definition exact_at (rnd : Q -> Q) (q : Q) : Prop := (rnd q == q)%Q.

(** The three floats the centred layout forms from [ax] and [w] are
    exact: [float(ax)], [w / 2] and [ax - w / 2].  Binary64 represents
    every half-integer below 2^52 exactly. *)
Definition halves_exact (rnd : Q -> Q) (ax w : Z) : Prop :=
  exact_at rnd (inject_Z ax)
  /\ exact_at rnd (inject_Z w / 2)
  /\ exact_at rnd (inject_Z ax - inject_Z w / 2).

(** [lerp(start, end, t)] evaluated in floats, [start * (1 - t) + end * t],
    and the channel value [int()] makes of it. *)
Definition lerp (rnd : Q -> Q) (s e : Z) (t : Q) : Q :=
  rnd (rnd (rnd (inject_Z s) * rnd (rnd (inject_Z 1) - t))
       + rnd (rnd (inject_Z e) * t))%Q.

Definition lerp_channel (rnd : Q -> Q) (s e : Z) (t : Q) : Z :=
  trunc (lerp rnd s e t).

(** The colour of one scanline. *)
Definition scanline (rnd : Q -> Q) (s0 s1 s2 s3 e0 e1 e2 e3 : Z) (H i : Z)
  : color :=
  let ratio := rnd (inject_Z i / inject_Z (Z.max 1 (H - 1)))%Q in
  [lerp_channel rnd s0 e0 ratio; lerp_channel rnd s1 e1 ratio;
   lerp_channel rnd s2 e2 ratio; lerp_channel rnd s3 e3 ratio].

(** The call stamps the glyph run [text] in font [f]. *)
Definition stamps (text : str) (f : font) (op : draw_op) : Prop :=
  exists xy fill, op = DrawText xy text f fill.

End RenderSpec.

(* ================================================================== *)
(** * Which dictionaries a call leaves alone *)
(* ================================================================== *)

Module SettingsSpec.
Import PyObj.

(** Every dictionary of [h] that is not in [P] is the same in [h']. *)
Definition unchanged_except (P : loc -> Prop) (h h' : store) : Prop :=
  forall l, is_Some (h !! l) -> ~ P l -> h' !! l = h !! l.

(** Every dictionary of [h] is the same in [h']. *)
Definition preserved (h h' : store) : Prop :=
  unchanged_except (fun _ => False) h h'.

Definition effects_key (key : string) : Prop :=
  key = "effects_original"%string \/ key = "effects_translation"%string.

(** [l] is one of the two effects dictionaries nested in
    [DEFAULT_SETTINGS]. *)
Definition nested_default (h : store) (l : loc) : Prop :=
  exists key, effects_key key
    /\ deref h Renderer.DEFAULT_SETTINGS !! key = Some (VDict l).

(** The dictionaries nested in [DEFAULT_SETTINGS] exist. *)
Definition defaults_exist (h : store) : Prop :=
  forall l, nested_default h l -> is_Some (h !! l).

(** The two dictionaries have the same value at every key other than the
    effects keys. *)
Definition agree_off_effects (d d' : dict) : Prop :=
  forall key, ~ effects_key key -> d' !! key = d !! key.

(** The state of the store while [render_settings] is being prepared:
    [rs] is the fresh copy of [DEFAULT_SETTINGS], the caller's dictionary
    [c] holds [cd1], and nothing else of [h] but the nested default
    dictionaries has changed. *)
Definition preparing (h h1 : store) (rs c : loc) (cd1 : dict) : Prop :=
  h1 !! rs = Some (deref h Renderer.DEFAULT_SETTINGS)
  /\ h1 !! c = Some cd1
  /\ (forall l, is_Some (h !! l) -> l <> c -> ~ nested_default h l ->
        h1 !! l = h !! l).

(** The dictionaries [process_subtitles] leaves behind. *)
Definition store_after (w : Main.world) (h : store) (path : string)
    (custom_settings : option loc) : store :=
  fst (fst (Main.process_subtitles w h path custom_settings)).

End SettingsSpec.

(* ================================================================== *)
(** * Binary64 rounding *)
(* ================================================================== *)

Module Binary64.

Definition b64_of_Z (z : Z) : spec_float := binary_normalize 53 1024 z 0 false.

(** The value of a finite binary64 number. *)
Definition Q_of_b64 (x : spec_float) : Q :=
  match x with
  | S754_finite sign m e =>
      let v := if sign then Zneg m else Zpos m in
      if 0 <=? e then inject_Z (v * 2 ^ e)
      else v # Pos.pow 2 (Z.to_pos (- e))
  | _ => 0
  end.

(** Rounding to the nearest binary64 number, ties to even: the IEEE 754
    quotient of the numerator and the denominator of the reduced
    fraction.  It is the correctly rounded value whenever both are
    binary64 numbers themselves, which holds for the quotient of two
    ints below 2^53 and for every sum, difference and product of
    floats (their denominators are powers of two). *)
Definition binary64 (q : Q) : Q :=
  let r := Qred q in
  Q_of_b64 (SFdiv 53 1024 (b64_of_Z (Qnum r)) (b64_of_Z (Zpos (Qden r)))).

End Binary64.

(* ================================================================== *)
(** * Sample inputs *)
(* ================================================================== *)

Module Samples.
Import PyStr Lines.

(** A file system in which every path reads as [text]. *)
Definition one_file (text : str) : string -> Parser.file_result :=
  fun _ => Parser.Content text.

Definition text_of_lines (lines : list string) : str :=
  flat_map (fun l => lit l ++ [NEWLINE]) lines.

(** Scenario A of the specification. *)
Definition pair_text : str := text_of_lines ["[Sub1]Hello"; "[Sub1ch]Hi"]%string.

(** A pair whose tag itself ends in [ch]. *)
Definition march_text : str :=
  text_of_lines ["[March]Hello"; "[Marchch]Hi"]%string.

(** The state after the single line [[Sub1]Hello]. *)
Definition after_sub1 : Parser.pstate :=
  Parser.step Parser.init 1 (lit "[Sub1]Hello").

(** A back end with binary64 arithmetic in which every font loads,
    every save succeeds and every text measures as [bbox]. *)
Definition fixed_bbox (bbox : Z * Z * Z * Z) : Renderer.backend :=
  Renderer.mkBackend Binary64.binary64 (fun _ => true) (fun _ _ => bbox)
    (fun _ => true).

Definition arial60 : Renderer.font := Renderer.mkFont "arial.ttf" 60.

(** Scenario D of the specification: 720p, left, anchor (10, 10), ink
    50 x 20. *)
Definition scenario_D : Renderer.settings :=
  {| Renderer.resolution := "720p";
     Renderer.font_path_original := "arial.ttf";
     Renderer.font_size_original := 60;
     Renderer.font_color_original := [255; 255; 0; 255];
     Renderer.font_path_translation := "arial.ttf";
     Renderer.font_size_translation := 40;
     Renderer.font_color_translation := [220; 220; 220; 255];
     Renderer.text_align := "left";
     Renderer.custom_x_original := 10;
     Renderer.custom_y_original := 10;
     Renderer.custom_x_translation := 10;
     Renderer.custom_y_translation := 10;
     Renderer.output_directory := "output_images";
     Renderer.effects_original := Renderer.no_effects;
     Renderer.effects_translation := Renderer.no_effects |}.

(** The default translation effects with the gradient turned on. *)
Definition gradient_and_outline : Renderer.effects :=
  {| Renderer.shadow_on := Some false;
     Renderer.shadow_offset_x := Some 2;
     Renderer.shadow_offset_y := Some 2;
     Renderer.shadow_color := Some [0; 0; 0; 128];
     Renderer.outline_on := Some true;
     Renderer.outline_width := Some 1;
     Renderer.outline_color := Some [0; 0; 0; 255];
     Renderer.gradient_on := Some true;
     Renderer.gradient_color_start := Some [200; 200; 200; 255];
     Renderer.gradient_color_end := Some [250; 250; 250; 255] |}.

(** Effects whose colours are given with three channels. *)
Definition rgb_effects : Renderer.effects :=
  {| Renderer.shadow_on := Some true;
     Renderer.shadow_offset_x := Some 2;
     Renderer.shadow_offset_y := Some 2;
     Renderer.shadow_color := Some [10; 20; 30];
     Renderer.outline_on := Some true;
     Renderer.outline_width := Some 1;
     Renderer.outline_color := Some [40; 50; 60];
     Renderer.gradient_on := Some false;
     Renderer.gradient_color_start := None;
     Renderer.gradient_color_end := None |}.

(** A world with one readable file, in which every directory exists. *)
Definition pair_world : Main.world :=
  Main.mkWorld (one_file pair_text) (fun _ => true) (fun _ => true)
    (fixed_bbox (0, 0, 50, 20)) (fun s => s).

(** The caller's dictionary [{"effects_original": {"outline_width": 5}}]
    and its nested dictionary. *)
Definition CUSTOM : PyObj.loc := 10%positive.
Definition CUSTOM_EFFECTS : PyObj.loc := 11%positive.

Definition custom_store : PyObj.store :=
  <[CUSTOM := {[ "effects_original"%string := PyObj.VDict CUSTOM_EFFECTS ]}]>
    (<[CUSTOM_EFFECTS := {[ "outline_width"%string := PyObj.VInt 5 ]}]>
       Renderer.module_store).

(** The caller's dictionary [{"resolution": "720p"}]. *)
Definition plain_store : PyObj.store :=
  <[CUSTOM := {[ "resolution"%string := PyObj.VStr "720p" ]}]>
    Renderer.module_store.

End Samples.

(* ================================================================== *)
(** * Facts about strings *)
(* ================================================================== *)

Section StringFacts.
Import PyStr Lines.

Lemma str_eqb_eq (a b : str) : str_eqb a b = true <-> a = b.
Proof.
  revert b; induction a as [|x a IH]; intros [|y b]; simpl;
    try (split; [discriminate | discriminate]); try (split; reflexivity).
  rewrite andb_true_iff, N.eqb_eq, IH.
  split; [intros [-> ->]; reflexivity | intros [= -> ->]; auto].
Qed.

Lemma str_eqb_refl (a : str) : str_eqb a a = true.
Proof. apply str_eqb_eq; reflexivity. Qed.

Lemma lstrip_blank (s : str) : blank s -> lstrip s = [].
Proof.
  induction 1 as [|c s Hc _ IH]; simpl; [reflexivity|].
  rewrite Hc; exact IH.
Qed.

Lemma lstrip_nil_blank (s : str) : lstrip s = [] -> blank s.
Proof.
  induction s as [|c s IH]; simpl; intros H; [constructor|].
  destruct (is_space c) eqn:Hc; [|discriminate].
  unfold blank; constructor; [exact Hc | apply IH; exact H].
Qed.

Lemma lstrip_app_blank (a b : str) : blank a -> lstrip (a ++ b) = lstrip b.
Proof.
  induction 1 as [|c a Hc _ IH]; simpl; [reflexivity|].
  rewrite Hc; exact IH.
Qed.

Lemma lstrip_app_keep (a b : str) :
  lstrip a <> [] -> lstrip (a ++ b) = lstrip a ++ b.
Proof.
  induction a as [|c a IH]; simpl; intros H; [congruence|].
  destruct (is_space c); [apply IH; exact H | reflexivity].
Qed.

Lemma lstrip_idem (s : str) : lstrip (lstrip s) = lstrip s.
Proof.
  induction s as [|c s IH]; simpl; [reflexivity|].
  destruct (is_space c) eqn:Hc; [exact IH|].
  simpl; rewrite Hc; reflexivity.
Qed.

Lemma lstrip_head (c : char) (s : str) :
  is_space c = false -> lstrip (c :: s) = c :: s.
Proof. intros H; simpl; rewrite H; reflexivity. Qed.

Lemma blank_rev (s : str) : blank s -> blank (rev s).
Proof. unfold blank; intros H; apply Forall_rev; exact H. Qed.

Lemma rstrip_blank (s : str) : blank s -> rstrip s = [].
Proof.
  intros H; unfold rstrip; rewrite lstrip_blank; [reflexivity|].
  apply blank_rev; exact H.
Qed.

Lemma rstrip_nil_blank (s : str) : rstrip s = [] -> blank s.
Proof.
  unfold rstrip; intros H.
  assert (lstrip (rev s) = []) as H'.
  { rewrite <- (rev_involutive (lstrip (rev s))), H; reflexivity. }
  apply lstrip_nil_blank, blank_rev in H'.
  rewrite rev_involutive in H'; exact H'.
Qed.

Lemma rstrip_app_blank (a b : str) : blank b -> rstrip (a ++ b) = rstrip a.
Proof.
  intros H; unfold rstrip.
  rewrite rev_app_distr, lstrip_app_blank; [reflexivity|].
  apply blank_rev; exact H.
Qed.

Lemma rstrip_app_keep (a b : str) :
  rstrip b <> [] -> rstrip (a ++ b) = a ++ rstrip b.
Proof.
  intros H; unfold rstrip in *.
  rewrite rev_app_distr, lstrip_app_keep.
  - rewrite rev_app_distr, rev_involutive; reflexivity.
  - intros E; apply H; rewrite E; reflexivity.
Qed.

Lemma rstrip_idem (s : str) : rstrip (rstrip s) = rstrip s.
Proof. unfold rstrip; rewrite rev_involutive, lstrip_idem; reflexivity. Qed.

Lemma strip_nonempty_rstrip (s : str) : strip s <> [] -> rstrip s <> [].
Proof.
  intros H E; apply H.
  apply rstrip_nil_blank in E.
  unfold strip; rewrite (lstrip_blank s E); reflexivity.
Qed.

Lemma lstrip_suffix (s : str) : exists ws, blank ws /\ s = ws ++ lstrip s.
Proof.
  induction s as [|c s [ws [Hws Hs]]]; [exists []; split; [constructor | reflexivity]|].
  simpl; destruct (is_space c) eqn:Hc.
  - exists (c :: ws); split; [constructor; assumption|].
    simpl; congruence.
  - exists []; split; [constructor | reflexivity].
Qed.

Lemma rstrip_prefix (s : str) : exists ws, blank ws /\ s = rstrip s ++ ws.
Proof.
  destruct (lstrip_suffix (rev s)) as [ws [Hws Hs]].
  exists (rev ws); split; [apply blank_rev; exact Hws|].
  unfold rstrip; rewrite <- rev_app_distr, <- Hs, rev_involutive; reflexivity.
Qed.

(** [lstrip] and [rstrip] commute. *)
Lemma lstrip_rstrip (s : str) : lstrip (rstrip s) = rstrip (lstrip s).
Proof.
  destruct (lstrip_suffix s) as [ws [Hws Hs]].
  destruct (lstrip s) as [|c r] eqn:E.
  - rewrite app_nil_r in Hs; subst ws.
    rewrite (rstrip_blank s Hws); reflexivity.
  - assert (is_space c = false) as Hc.
    { pose proof (lstrip_idem s) as Hi; rewrite E in Hi; simpl in Hi.
      destruct (is_space c); [|reflexivity].
      exfalso.
      assert (length (lstrip r) <= length r)%nat as Hlen.
      { clear; induction r as [|d r IH]; simpl; [lia|].
        destruct (is_space d); simpl; lia. }
      rewrite Hi in Hlen; simpl in Hlen; lia. }
    assert (rstrip (c :: r) <> []) as Hne.
    { intros Hn; apply rstrip_nil_blank in Hn.
      inversion Hn; congruence. }
    rewrite Hs at 1.
    rewrite (rstrip_app_keep ws (c :: r) Hne), (lstrip_app_blank _ _ Hws).
    destruct (rstrip_prefix (c :: r)) as [ws' [_ Hp]].
    destruct (rstrip (c :: r)) as [|c' r'] eqn:Er; [congruence|].
    simpl in Hp; injection Hp as <- _.
    apply lstrip_head; exact Hc.
Qed.

Lemma strip_rstrip (s : str) : strip (rstrip s) = strip s.
Proof. unfold strip; rewrite lstrip_rstrip, rstrip_idem; reflexivity. Qed.

Lemma in_rstrip (c : char) (s : str) : In c (rstrip s) -> In c s.
Proof.
  destruct (rstrip_prefix s) as [ws [_ Hs]]; intros H.
  rewrite Hs; apply in_or_app; left; exact H.
Qed.

Lemma span_all (p : char -> bool) (s : str) :
  (forall c, In c s -> p c = true) -> span p s = (s, []).
Proof.
  induction s as [|c s IH]; simpl; intros H; [reflexivity|].
  rewrite (H c (or_introl eq_refl)), IH; [reflexivity|].
  intros d Hd; apply H; right; exact Hd.
Qed.

Lemma span_stop (p : char -> bool) (a : str) (c : char) (b : str) :
  (forall d, In d a -> p d = true) -> p c = false ->
  span p (a ++ c :: b) = (a, c :: b).
Proof.
  induction a as [|d a IH]; simpl; intros Ha Hc; [rewrite Hc; reflexivity|].
  rewrite (Ha d (or_introl eq_refl)), IH; auto.
Qed.

Lemma endswith_app (T suffix : str) : endswith (T ++ suffix) suffix = true.
Proof.
  unfold endswith.
  rewrite length_app.
  replace (length T + length suffix - length suffix)%nat with (length T) by lia.
  rewrite skipn_app, skipn_all, Nat.sub_diag; simpl.
  rewrite str_eqb_refl; simpl.
  apply Nat.leb_le; lia.
Qed.

Lemma drop_last2_app (T : str) (a b : char) : drop_last2 (T ++ [a; b]) = T.
Proof.
  unfold drop_last2; rewrite length_app; simpl.
  replace (length T + 2 - 2)%nat with (length T) by lia.
  rewrite firstn_app, firstn_all, Nat.sub_diag; simpl.
  apply app_nil_r.
Qed.

End StringFacts.

(* ================================================================== *)
(** * Facts about the parser *)
(* ================================================================== *)

Section ParserFacts.
Import PyStr Lines Parser.

(** What a matched line carries. *)
Lemma parse_subtitle_line_sound (l b f t : str) (tr : bool) :
  parse_subtitle_line l = Some (b, f, t, tr) ->
  f <> [] /\ t <> [] /\ tr = endswith f ch
  /\ b = (if tr then drop_last2 f else f).
Proof.
  unfold parse_subtitle_line.
  destruct (is_empty (strip l)); [discriminate|].
  destruct (re_match_tag (strip l)) as [[full g2]|] eqn:Hm; [|discriminate].
  destruct (is_empty (strip g2)) eqn:Ht; [discriminate|].
  intros [= <- <- <- <-].
  repeat split.
  - unfold re_match_tag in Hm.
    destruct (strip l) as [|c rest]; [discriminate|].
    destruct (c =? LBRACKET)%N; [|discriminate].
    destruct (span _ rest) as [[|x tag] [|y tail]]; try discriminate.
    injection Hm as <- _; discriminate.
  - destruct (strip g2); [discriminate | discriminate].
Qed.

(** A blank line does not match. *)
Lemma parse_blank (l : str) : blank l -> parse_subtitle_line l = None.
Proof.
  intros H; unfold parse_subtitle_line, strip.
  rewrite (lstrip_blank l H); reflexivity.
Qed.

(** A line that does not start with a bracket does not match. *)
Lemma parse_no_bracket (lead : str) (c : char) (rest : str) :
  blank lead -> is_space c = false -> c <> LBRACKET ->
  parse_subtitle_line (lead ++ c :: rest) = None.
Proof.
  intros Hl Hc Hne; unfold parse_subtitle_line, strip.
  rewrite (lstrip_app_blank _ _ Hl), (lstrip_head c rest Hc).
  destruct (rstrip_prefix (c :: rest)) as [ws [_ Hp]].
  destruct (rstrip (c :: rest)) as [|c' r'] eqn:Er; [reflexivity|].
  simpl in Hp; injection Hp as <- _.
  simpl. apply N.eqb_neq in Hne; rewrite Hne; reflexivity.
Qed.

Lemma strip_raw_line (lead T X eol : str) :
  blank lead -> blank eol -> rstrip X <> [] ->
  strip (raw_line lead T X eol)
  = [LBRACKET] ++ T ++ [RBRACKET] ++ rstrip X.
Proof.
  intros Hl He Hx; unfold strip, raw_line.
  rewrite (lstrip_app_blank _ _ Hl).
  change ([LBRACKET] ++ T ++ [RBRACKET] ++ X ++ eol)
    with (LBRACKET :: (T ++ [RBRACKET] ++ X ++ eol)).
  rewrite lstrip_head by reflexivity.
  replace (LBRACKET :: (T ++ [RBRACKET] ++ X ++ eol))
    with ((([LBRACKET] ++ T ++ [RBRACKET]) ++ X) ++ eol)
    by (repeat rewrite <- app_assoc; reflexivity).
  rewrite (rstrip_app_blank _ _ He), (rstrip_app_keep _ _ Hx).
  repeat rewrite <- app_assoc; reflexivity.
Qed.

(** How a line [[T]X] is classified. *)
Lemma parse_raw_line (lead T X eol : str) :
  blank lead -> blank eol -> T <> [] -> ~ In RBRACKET T ->
  ~ In NEWLINE X -> strip X <> [] ->
  parse_subtitle_line (raw_line lead T X eol)
  = Some (if endswith T ch then drop_last2 T else T, T, strip X,
          endswith T ch).
Proof.
  intros Hl He HT Hrb Hnl Hx.
  pose proof (strip_nonempty_rstrip X Hx) as Hrx.
  unfold parse_subtitle_line.
  rewrite (strip_raw_line lead T X eol Hl He Hrx).
  cbn [app is_empty re_match_tag].
  change (LBRACKET =? LBRACKET)%N with true; cbv iota.
  rewrite (span_stop _ T RBRACKET (rstrip X)).
  - destruct T as [|t0 T']; [congruence|].
    rewrite (span_all _ (rstrip X)).
    + cbn [fst]. rewrite strip_rstrip.
      destruct (strip X) eqn:E; [congruence|]. reflexivity.
    + intros c Hc. apply in_rstrip in Hc.
      destruct (N.eqb_spec c NEWLINE) as [->|]; [contradiction | reflexivity].
  - intros d Hd.
    destruct (N.eqb_spec d RBRACKET) as [->|]; [contradiction | reflexivity].
  - rewrite N.eqb_refl; reflexivity.
Qed.

(** A tag followed by nothing but white space does not match. *)
Lemma parse_empty_text (lead T X eol : str) :
  blank lead -> blank eol -> ~ In RBRACKET T -> blank X ->
  parse_subtitle_line (raw_line lead T X eol) = None.
Proof.
  intros Hl He Hrb Hx; unfold parse_subtitle_line, strip, raw_line.
  rewrite (lstrip_app_blank _ _ Hl).
  change ([LBRACKET] ++ T ++ [RBRACKET] ++ X ++ eol)
    with (LBRACKET :: (T ++ [RBRACKET] ++ X ++ eol)).
  rewrite lstrip_head by reflexivity.
  replace (LBRACKET :: (T ++ [RBRACKET] ++ X ++ eol))
    with ((([LBRACKET] ++ T ++ [RBRACKET]) ++ X) ++ eol)
    by (repeat rewrite <- app_assoc; reflexivity).
  rewrite (rstrip_app_blank _ _ He), (rstrip_app_blank _ _ Hx).
  replace ([LBRACKET] ++ T ++ [RBRACKET])
    with (([LBRACKET] ++ T) ++ [RBRACKET])
    by (repeat rewrite <- app_assoc; reflexivity).
  rewrite (rstrip_app_keep _ [RBRACKET]) by (cbv; discriminate).
  change (rstrip [RBRACKET]) with [RBRACKET].
  cbn [app is_empty re_match_tag].
  change (LBRACKET =? LBRACKET)%N with true; cbv iota.
  change (T ++ [RBRACKET]) with (T ++ RBRACKET :: []).
  rewrite (span_stop _ T RBRACKET []).
  - destruct T; reflexivity.
  - intros d Hd.
    destruct (N.eqb_spec d RBRACKET) as [->|]; [contradiction | reflexivity].
  - rewrite N.eqb_refl; reflexivity.
Qed.

(** An opening bracket that is never closed does not match. *)
Lemma parse_unclosed (lead rest : str) :
  blank lead -> ~ In RBRACKET rest ->
  parse_subtitle_line (lead ++ LBRACKET :: rest) = None.
Proof.
  intros Hl Hrb; unfold parse_subtitle_line, strip.
  rewrite (lstrip_app_blank _ _ Hl), lstrip_head by reflexivity.
  destruct (rstrip_prefix (LBRACKET :: rest)) as [ws [_ Hp]].
  destruct (rstrip (LBRACKET :: rest)) as [|c r] eqn:Er; [reflexivity|].
  simpl in Hp; injection Hp as <- Hrest.
  cbn [is_empty re_match_tag].
  change (LBRACKET =? LBRACKET)%N with true; cbv iota.
  rewrite span_all.
  - destruct r; reflexivity.
  - intros d Hd.
    destruct (N.eqb_spec d RBRACKET) as [->|]; [|reflexivity].
    exfalso; apply Hrb; rewrite Hrest; apply in_or_app; left; exact Hd.
Qed.

(** An empty pair of brackets does not match. *)
Lemma parse_empty_tag (lead rest : str) :
  blank lead ->
  parse_subtitle_line (lead ++ LBRACKET :: RBRACKET :: rest) = None.
Proof.
  intros Hl; unfold parse_subtitle_line, strip.
  rewrite (lstrip_app_blank _ _ Hl), lstrip_head by reflexivity.
  assert (exists r, rstrip (LBRACKET :: RBRACKET :: rest)
                    = LBRACKET :: RBRACKET :: r) as [r ->].
  { change (LBRACKET :: RBRACKET :: rest)
      with ([LBRACKET; RBRACKET] ++ rest).
    destruct (rstrip rest) as [|c r] eqn:Er.
    - exists []. apply rstrip_nil_blank in Er.
      rewrite (rstrip_app_blank _ _ Er); reflexivity.
    - exists (c :: r).
      rewrite rstrip_app_keep by (rewrite Er; discriminate).
      rewrite Er; reflexivity. }
  reflexivity.
Qed.

(** Every NoMatch line is one for [parse_subtitle_line]. *)
Lemma parse_nomatch (l : str) : nomatch_line l -> parse_subtitle_line l = None.
Proof.
  intros [l' H | lead c rest Hl Hc Hne | lead rest Hl Hrb | lead rest Hl
          | lead T X eol Hl He Hrb Hx].
  - apply parse_blank, H.
  - apply parse_no_bracket; assumption.
  - apply parse_unclosed; assumption.
  - apply parse_empty_tag; assumption.
  - apply parse_empty_text; assumption.
Qed.

Lemma drop_last2_ch (T : str) : drop_last2 (T ++ ch) = T.
Proof. exact (drop_last2_app T 99%N 104%N). Qed.

End ParserFacts.

(* ================================================================== *)
(** * The pairing loop *)
(* ================================================================== *)

Section PairingLoop.
Import PyStr Lines Parser.

Lemma guard_holds (s : pstate) (T X : str) :
  holds_original s T X -> pending_guard s = true.
Proof.
  intros (HT & HX & Hb & Ht & Hf); unfold pending_guard.
  rewrite Hb, Ht, Hf.
  destruct T; [congruence|]; destruct X; [congruence|]; reflexivity.
Qed.

Lemma guard_empty (s : pstate) : pending_empty s -> pending_guard s = false.
Proof.
  intros (Hb & Ht & Hf); unfold pending_guard; rewrite Ht; reflexivity.
Qed.

Lemma standalone_holds (s : pstate) (T X : str) :
  holds_original s T X -> standalone s = standalone_entry T X.
Proof.
  intros (_ & _ & Hb & Ht & Hf); unfold standalone, standalone_entry.
  rewrite Hb, Ht, Hf; reflexivity.
Qed.

Lemma slot_ok_init : slot_ok init.
Proof. left; repeat split. Qed.

Lemma slot_ok_step (s : pstate) (n : nat) (l : str) :
  slot_ok s -> slot_ok (step s n l).
Proof.
  intros Hs; unfold step.
  destruct (parse_subtitle_line l) as [[[[b f] t] tr]|] eqn:Hp.
  - destruct (parse_subtitle_line_sound _ _ _ _ _ Hp) as (Hf & Ht & Htr & Hb).
    destruct tr; cbn [negb].
    + destruct (truthy (temp_original_text s) && opt_eqb (last_base_tag s) b
                && truthy (temp_full_tag_original s)).
      * left; repeat split.
      * exact Hs.
    + right; exists f, t; subst b; repeat split; assumption.
  - destruct (pending_guard s); [left; repeat split | exact Hs].
Qed.

Lemma slot_ok_loop (lines : list str) (s : pstate) (n : nat) :
  slot_ok s -> slot_ok (loop s n lines).
Proof.
  revert s n; induction lines as [|l lines IH]; intros s n Hs; simpl;
    [exact Hs | apply IH, slot_ok_step, Hs].
Qed.

Lemma loop_app (a b : list str) (s : pstate) (n : nat) :
  loop s n (a ++ b) = loop (loop s n a) (n + length a) b.
Proof.
  revert s n; induction a as [|l a IH]; intros s n; simpl.
  - rewrite Nat.add_0_r; reflexivity.
  - rewrite IH; f_equal; lia.
Qed.

Lemma guard_same (s s' : pstate) :
  same_pending s s' -> pending_guard s = pending_guard s'.
Proof.
  intros (Hb & Ht & Hf); unfold pending_guard; rewrite Hb, Ht, Hf; reflexivity.
Qed.

Lemma standalone_same (s s' : pstate) :
  same_pending s s' -> standalone s = standalone s'.
Proof.
  intros (Hb & Ht & Hf); unfold standalone; rewrite Hb, Ht, Hf; reflexivity.
Qed.

(** The entries emitted by a step depend neither on the line number nor
    on what was emitted or printed before. *)
Lemma step_shift (acc : list SubtitleEntry) (s s' : pstate) (n n' : nat)
    (l : str) :
  subtitles s' = acc ++ subtitles s -> same_pending s s' ->
  subtitles (step s' n' l) = acc ++ subtitles (step s n l)
  /\ same_pending (step s n l) (step s' n' l).
Proof.
  intros Hsub Hsame.
  pose proof (guard_same _ _ Hsame) as Hg.
  pose proof (standalone_same _ _ Hsame) as Hst.
  destruct Hsame as (Hb & Ht & Hf).
  unfold step.
  destruct (parse_subtitle_line l) as [[[[b f] t] tr]|].
  - destruct tr; cbn [negb].
    + rewrite <- Hb, <- Ht, <- Hf.
      destruct (truthy (temp_original_text s) && opt_eqb (last_base_tag s) b
                && truthy (temp_full_tag_original s)); cbn.
      * rewrite Hsub, <- app_assoc; repeat split.
      * repeat split; assumption.
    + cbn. rewrite <- Hg, <- Hst.
      destruct (pending_guard s); rewrite Hsub, <- ?app_assoc; repeat split.
  - rewrite <- Hg, <- Hst.
    destruct (pending_guard s); cbn.
    + rewrite Hsub, <- app_assoc; repeat split.
    + repeat split; assumption.
Qed.

Lemma loop_shift (lines : list str) (acc : list SubtitleEntry)
    (s s' : pstate) (n n' : nat) :
  subtitles s' = acc ++ subtitles s -> same_pending s s' ->
  finish (loop s' n' lines) = acc ++ finish (loop s n lines).
Proof.
  revert s s' n n'; induction lines as [|l lines IH];
    intros s s' n n' Hsub Hsame; simpl.
  - unfold finish.
    rewrite <- (guard_same _ _ Hsame), <- (standalone_same _ _ Hsame), Hsub.
    destruct (pending_guard s); rewrite <- ?app_assoc; reflexivity.
  - destruct (step_shift acc s s' n n' l Hsub Hsame) as [H1 H2].
    apply IH; assumption.
Qed.

(** From an empty slot the rest of the file is parsed on its own. *)
Lemma finish_loop_empty (lines : list str) (s : pstate) (n : nat) :
  pending_empty s ->
  finish (loop s n lines) = subtitles s ++ parse_lines lines.
Proof.
  intros (Hb & Ht & Hf); unfold parse_lines.
  apply loop_shift.
  - simpl; rewrite app_nil_r; reflexivity.
  - unfold same_pending; rewrite Hb, Ht, Hf; repeat split.
Qed.

(** An original line flushes what was pending and takes the slot. *)
Lemma step_original (s : pstate) (n : nat) (l b f t : str) :
  parse_subtitle_line l = Some (b, f, t, false) ->
  step s n l = mkState (finish s) (Some b) (Some t) (Some f) (printed s).
Proof. intros Hp; unfold step, finish; rewrite Hp; reflexivity. Qed.

(** A translation line whose base tag is not the pending one is dropped
    with a warning. *)
Lemma step_orphan (s : pstate) (n : nat) (l b f t : str) :
  parse_subtitle_line l = Some (b, f, t, true) ->
  last_base_tag s <> Some b ->
  step s n l
  = mkState (subtitles s) (last_base_tag s) (temp_original_text s)
      (temp_full_tag_original s)
      (printed s ++ [OrphanWarning n (strip l)]).
Proof.
  intros Hp Hne; unfold step; rewrite Hp; cbn [negb].
  replace (opt_eqb (last_base_tag s) b) with false.
  - rewrite andb_false_r; reflexivity.
  - symmetry; unfold opt_eqb.
    destruct (last_base_tag s) as [a|]; [|reflexivity].
    destruct (str_eqb a b) eqn:E; [|reflexivity].
    apply str_eqb_eq in E; subst a; congruence.
Qed.

End PairingLoop.

(* ================================================================== *)
(** * Properties of the parser *)
(* ================================================================== *)

Section ParserProperties.
Import PyStr Lines Parser.

(** C1, as amended.  In a file that contains a line [[T]X] immediately
    followed by [[Tch]Y], where [T] is a non-empty tag without closing
    bracket that does not itself end in [ch] and both texts are non-empty
    after trimming, the first line takes the pending slot, the second
    emits exactly one entry with id [T], original tag [T], original text
    [X] (trimmed), translated text [Y] (trimmed) and translation tag
    [Tch], the slot is empty afterwards, and the entries returned for the
    file are those of the lines before the pair, this one entry, and
    those of the lines after the pair. *)
Theorem pair_yields_one_entry
    (fs : string -> file_result) (filepath : string) (text : str)
    (pre post : list str) (lead1 eol1 lead2 eol2 T X Y : str) :
  fs filepath = Content text ->
  file_lines text
  = pre ++ raw_line lead1 T X eol1 :: raw_line lead2 (T ++ ch) Y eol2 :: post ->
  blank lead1 -> blank eol1 -> blank lead2 -> blank eol2 ->
  T <> [] -> ~ In RBRACKET T -> endswith T ch = false ->
  ~ In NEWLINE X -> ~ In NEWLINE Y -> strip X <> [] -> strip Y <> [] ->
  let before := loop init 1 (pre ++ [raw_line lead1 T X eol1]) in
  let after :=
    step before (2 + length pre) (raw_line lead2 (T ++ ch) Y eol2) in
  holds_original before T (strip X)
  /\ subtitles after
     = subtitles before ++ [paired_entry T (strip X) (strip Y)]
  /\ pending_empty after
  /\ fst (parse_subtitle_file fs filepath)
     = parse_lines pre ++ [paired_entry T (strip X) (strip Y)]
       ++ parse_lines post.
Proof.
  intros Hfs Hlines Hl1 He1 Hl2 He2 HT Hrb Hch HnX HnY HX HY before after.
  pose proof (parse_raw_line lead1 T X eol1 Hl1 He1 HT Hrb HnX HX) as P1.
  rewrite Hch in P1.
  assert (~ In RBRACKET (T ++ ch)) as Hrb2.
  { intros Hin; apply in_app_or in Hin as [Hin|Hin]; [auto|].
    cbv in Hin; intuition discriminate. }
  assert (T ++ ch <> []) as HT2 by (destruct T; [congruence | discriminate]).
  pose proof (parse_raw_line lead2 (T ++ ch) Y eol2 Hl2 He2 HT2 Hrb2 HnY HY)
    as P2.
  rewrite endswith_app in P2.
  rewrite drop_last2_ch in P2.
  set (s0 := loop init 1 pre).
  assert (before
          = mkState (finish s0) (Some T) (Some (strip X)) (Some T) (printed s0))
    as Hbefore.
  { unfold before; rewrite loop_app; simpl.
    apply (step_original _ _ _ _ _ _ P1). }
  assert (after
          = mkState (finish s0 ++ [paired_entry T (strip X) (strip Y)])
              None None None (printed s0)) as Hafter.
  { unfold after; rewrite Hbefore; unfold step; rewrite P2; cbn.
    rewrite str_eqb_refl.
    destruct (strip X); [congruence|]; destruct T; [congruence|].
    reflexivity. }
  split; [|split; [|split]].
  - rewrite Hbefore; repeat split; assumption.
  - rewrite Hafter, Hbefore; reflexivity.
  - rewrite Hafter; repeat split.
  - unfold parse_subtitle_file; rewrite Hfs, Hlines; cbn [fst].
    replace (pre ++ raw_line lead1 T X eol1
                 :: raw_line lead2 (T ++ ch) Y eol2 :: post)
      with ((pre ++ [raw_line lead1 T X eol1])
              ++ raw_line lead2 (T ++ ch) Y eol2 :: post)
      by (rewrite <- app_assoc; reflexivity).
    rewrite loop_app; fold before.
    cbn [loop].
    replace (1 + length (pre ++ [raw_line lead1 T X eol1]))%nat
      with (2 + length pre)%nat by (rewrite length_app; simpl; lia).
    fold after.
    rewrite finish_loop_empty by (rewrite Hafter; repeat split).
    rewrite Hafter; cbn [subtitles].
    rewrite <- app_assoc; reflexivity.
Qed.

(** C2.  When the pending slot holds an original [[T]X]: a line that does
    not match flushes it as one standalone entry and leaves the slot
    empty; a new original line does the same and then takes the slot; the
    end of input flushes it as one standalone entry.  A line that does
    not match, met with an empty slot, changes nothing.  Blank lines,
    lines outside the tag grammar and lines whose text is empty after
    trimming are lines that do not match. *)
Theorem pending_original_is_flushed (s : pstate) (T X : str) :
  holds_original s T X ->
  (forall n l, parse_subtitle_line l = None ->
     step s n l = flushed s (standalone_entry T X)
     /\ pending_empty (step s n l))
  /\ (forall n l b f t, parse_subtitle_line l = Some (b, f, t, false) ->
        subtitles (step s n l) = subtitles s ++ [standalone_entry T X]
        /\ step s n l = step (flushed s (standalone_entry T X)) n l
        /\ holds_original (step s n l) f t)
  /\ finish s = subtitles s ++ [standalone_entry T X]
  /\ finish s = finish (flushed s (standalone_entry T X))
  /\ (forall s0 n l, pending_empty s0 -> parse_subtitle_line l = None ->
        step s0 n l = s0)
  /\ (forall l, nomatch_line l -> parse_subtitle_line l = None).
Proof.
  intros Hs.
  pose proof (guard_holds s T X Hs) as Hg.
  pose proof (standalone_holds s T X Hs) as Hst.
  repeat split.
  - unfold step; rewrite H, Hg, Hst; reflexivity.
  - unfold step; rewrite H, Hg; reflexivity.
  - unfold step; rewrite H, Hg; reflexivity.
  - unfold step; rewrite H, Hg; reflexivity.
  - rewrite (step_original _ _ _ _ _ _ H); unfold finish.
    rewrite Hg, Hst; reflexivity.
  - rewrite !(step_original _ _ _ _ _ _ H); unfold finish, flushed.
    rewrite Hg, Hst; reflexivity.
  - destruct (parse_subtitle_line_sound _ _ _ _ _ H) as (Hf & _); exact Hf.
  - destruct (parse_subtitle_line_sound _ _ _ _ _ H) as (_ & Ht & _); exact Ht.
  - rewrite (step_original _ _ _ _ _ _ H); cbn.
    destruct (parse_subtitle_line_sound _ _ _ _ _ H) as (_ & _ & _ & Hb).
    rewrite Hb; reflexivity.
  - rewrite (step_original _ _ _ _ _ _ H); reflexivity.
  - rewrite (step_original _ _ _ _ _ _ H); reflexivity.
  - unfold finish; rewrite Hg, Hst; reflexivity.
  - unfold finish, flushed; rewrite Hg, Hst; reflexivity.
  - intros s0 n l H0 Hp; unfold step.
    rewrite Hp, (guard_empty s0 H0); reflexivity.
  - apply parse_nomatch.
Qed.

(** C3.  A translation line that arrives while the pending slot is empty
    or holds an original with another base tag emits no entry, is
    reported by a warning that names its line, and leaves the slot as it
    was, so that the lines after it are treated as if it had not been
    there. *)
Theorem orphan_translation_is_dropped
    (s : pstate) (n : nat) (l b f t : str) :
  parse_subtitle_line l = Some (b, f, t, true) ->
  pending_empty s \/ (exists T X, holds_original s T X /\ T <> b) ->
  subtitles (step s n l) = subtitles s
  /\ same_pending s (step s n l)
  /\ printed (step s n l) = printed s ++ [OrphanWarning n (strip l)]
  /\ (forall n' rest,
        finish (loop (step s n l) n' rest) = finish (loop s n' rest)).
Proof.
  intros Hp Hs.
  assert (last_base_tag s <> Some b) as Hne.
  { destruct Hs as [(Hb & _) | (T & X & (_ & _ & Hb & _) & HTb)];
      rewrite Hb; congruence. }
  rewrite (step_orphan s n l b f t Hp Hne); cbn.
  repeat split.
  intros n' rest.
  apply (loop_shift rest [] s); [reflexivity | repeat split].
Qed.

(** C10.  A matched line whose full tag is exactly [ch] is a translation
    with the empty base tag; the base tag of an original line is its full
    tag, which is not empty; so in [parse_subtitle_file] such a line is
    always dropped with a warning: it emits nothing, leaves the slot as
    it was, and the entries returned are those of the file without the
    line. *)
Theorem bare_ch_tag_is_orphan :
  (forall l b f t tr, parse_subtitle_line l = Some (b, f, t, tr) ->
     f = ch -> b = [] /\ tr = true)
  /\ (forall lead X eol, blank lead -> blank eol -> ~ In NEWLINE X ->
        strip X <> [] ->
        parse_subtitle_line (raw_line lead ch X eol)
        = Some ([], ch, strip X, true))
  /\ (forall l b f t, parse_subtitle_line l = Some (b, f, t, false) ->
        b = f /\ b <> [])
  /\ (forall pre post l b t tr,
        parse_subtitle_line l = Some (b, ch, t, tr) ->
        let s := loop init 1 pre in
        step s (1 + length pre) l
        = mkState (subtitles s) (last_base_tag s) (temp_original_text s)
            (temp_full_tag_original s)
            (printed s ++ [OrphanWarning (1 + length pre) (strip l)])
        /\ parse_lines (pre ++ l :: post) = parse_lines (pre ++ post)).
Proof.
  assert (forall l b f t tr, parse_subtitle_line l = Some (b, f, t, tr) ->
            f = ch -> b = [] /\ tr = true) as Hch.
  { intros l b f t tr Hp ->.
    destruct (parse_subtitle_line_sound _ _ _ _ _ Hp) as (_ & _ & Htr & Hb).
    change (endswith ch ch) with true in Htr; subst tr.
    split; [exact Hb | reflexivity]. }
  split; [exact Hch|]. split; [|split].
  - intros lead X eol Hl He Hn Hx.
    rewrite (parse_raw_line lead ch X eol Hl He); try assumption.
    + reflexivity.
    + discriminate.
    + cbv; intuition discriminate.
  - intros l b f t Hp.
    destruct (parse_subtitle_line_sound _ _ _ _ _ Hp) as (Hf & _ & _ & Hb).
    subst b; split; [reflexivity | exact Hf].
  - intros pre post l b t tr Hp s.
    destruct (Hch _ _ _ _ _ Hp eq_refl) as [-> ->].
    assert (last_base_tag s <> Some []) as Hne.
    { destruct (slot_ok_loop pre init 1 slot_ok_init)
        as [(Hb & _) | (T & X & (HT & _ & Hb & _))];
        fold s in Hb; rewrite Hb; congruence. }
    pose proof (step_orphan s (1 + length pre) l [] ch t Hp Hne) as Hstep.
    split; [exact Hstep|].
    unfold parse_lines; rewrite !loop_app; fold s; cbn [loop].
    apply (loop_shift post [] (loop init 1 pre)); fold s.
    + rewrite Hstep; reflexivity.
    + rewrite Hstep; repeat split.
Qed.

Lemma pair_yields_one_entry_witness :
  fst (parse_subtitle_file (Samples.one_file Samples.pair_text) "subs.txt")
  = [paired_entry (lit "Sub1") (lit "Hello") (lit "Hi")].
Proof.
  refine (proj2 (proj2 (proj2
    (pair_yields_one_entry (Samples.one_file Samples.pair_text) "subs.txt"
       Samples.pair_text [] [] [] [NEWLINE] [] [NEWLINE]
       (lit "Sub1") (lit "Hello") (lit "Hi")
       eq_refl eq_refl _ _ _ _ _ _ eq_refl _ _ _ _)))).
  - constructor.
  - repeat constructor.
  - constructor.
  - repeat constructor.
  - discriminate.
  - cbv; intuition discriminate.
  - cbv; intuition discriminate.
  - cbv; intuition discriminate.
  - discriminate.
  - discriminate.
Defined.

(** C1 as stated fails when the tag itself ends in [ch]: the line
    [[March]Hello] is read as a translation of [Mar], the line
    [[Marchch]Hi] as a translation of [March], both are dropped as
    orphans and no entry is emitted for the pair. *)
Lemma pair_with_ch_tag_yields_nothing :
  file_lines Samples.march_text
  = [raw_line [] (lit "March") (lit "Hello") [NEWLINE];
     raw_line [] (lit "March" ++ ch) (lit "Hi") [NEWLINE]]
  /\ lit "March" <> [] /\ ~ In RBRACKET (lit "March")
  /\ strip (lit "Hello") <> [] /\ strip (lit "Hi") <> []
  /\ parse_subtitle_line (lit "[March]Hello")
     = Some (lit "Mar", lit "March", lit "Hello", true)
  /\ parse_subtitle_file (Samples.one_file Samples.march_text) "subs.txt"
     = ([], [OrphanWarning 1 (lit "[March]Hello");
             OrphanWarning 2 (lit "[Marchch]Hi")])
  /\ ~ In (paired_entry (lit "March") (lit "Hello") (lit "Hi"))
         (fst (parse_subtitle_file (Samples.one_file Samples.march_text)
                 "subs.txt")).
Proof.
  repeat split; try reflexivity; try discriminate;
    cbv; intuition discriminate.
Qed.

Lemma pending_original_is_flushed_witness :
  holds_original Samples.after_sub1 (lit "Sub1") (lit "Hello")
  /\ finish Samples.after_sub1 = [standalone_entry (lit "Sub1") (lit "Hello")]
  /\ step Samples.after_sub1 2 [NEWLINE]
     = flushed Samples.after_sub1 (standalone_entry (lit "Sub1") (lit "Hello")).
Proof.
  assert (holds_original Samples.after_sub1 (lit "Sub1") (lit "Hello")) as H
    by (repeat split; discriminate).
  split; [exact H|].
  pose proof (pending_original_is_flushed Samples.after_sub1
                (lit "Sub1") (lit "Hello") H) as (H1 & _ & H3 & _).
  split; [exact H3|].
  exact (proj1 (H1 2%nat [NEWLINE] eq_refl)).
Defined.

Lemma orphan_translation_is_dropped_witness :
  subtitles (step init 1 (lit "[Sub1ch]OrphanOnly")) = []
  /\ printed (step init 1 (lit "[Sub1ch]OrphanOnly"))
     = [OrphanWarning 1 (lit "[Sub1ch]OrphanOnly")].
Proof.
  pose proof (orphan_translation_is_dropped init 1 (lit "[Sub1ch]OrphanOnly")
                (lit "Sub1") (lit "Sub1ch") (lit "OrphanOnly") eq_refl
                (or_introl (conj eq_refl (conj eq_refl eq_refl))))
    as (H1 & _ & H3 & _).
  split; [exact H1 | exact H3].
Defined.

Lemma bare_ch_tag_is_orphan_witness :
  parse_lines [lit "[Sub1]Hello"; lit "[ch]Hi"; lit "[Sub1ch]Hallo"]
  = parse_lines [lit "[Sub1]Hello"; lit "[Sub1ch]Hallo"].
Proof.
  exact (proj2 (proj2 (proj2 (proj2 bare_ch_tag_is_orphan))
                  [lit "[Sub1]Hello"] [lit "[Sub1ch]Hallo"] (lit "[ch]Hi")
                  [] (lit "Hi") true eq_refl)).
Defined.

End ParserProperties.

(* ================================================================== *)
(** * Facts about numbers *)
(* ================================================================== *)

Section NumberFacts.
Import Renderer.

Lemma trunc_comp (p q : Q) : (p == q)%Q -> trunc p = trunc q.
Proof.
  intros E; unfold trunc.
  rewrite (Qleb_comp 0%Q 0%Q (Qeq_refl 0%Q) p q E).
  destruct (Qle_bool 0 q); [apply Qfloor_comp | apply Qceiling_comp]; exact E.
Qed.

Lemma trunc_inject_Z (z : Z) : trunc (inject_Z z) = z.
Proof.
  unfold trunc; destruct (Qle_bool 0 (inject_Z z));
    [apply Qfloor_Z | apply Qceiling_Z].
Qed.

(** [int()] moves a value by less than one unit. *)
Lemma trunc_within_one (q : Q) : (Qabs (inject_Z (trunc q) - q) < 1)%Q.
Proof.
  apply Qabs_diff_Qlt_condition; unfold trunc.
  destruct (Qle_bool 0 q).
  - pose proof (Qfloor_le q) as H1. pose proof (Qlt_floor q) as H2.
    rewrite inject_Z_plus in H2.
    split.
    + apply Qlt_le_trans with (inject_Z (Qfloor q)); [|exact H1].
      rewrite <- (Qplus_0_r (inject_Z (Qfloor q))) at 2.
      unfold Qminus; apply Qplus_lt_r; reflexivity.
    + exact H2.
  - pose proof (Qle_ceiling q) as H1. pose proof (Qceiling_lt q) as H2.
    unfold Z.sub in H2; rewrite inject_Z_plus in H2.
    split.
    + exact H2.
    + apply Qle_lt_trans with (inject_Z (Qceiling q)); [exact H1|].
      rewrite <- (Qplus_0_r (inject_Z (Qceiling q))) at 1.
      apply Qplus_lt_r; reflexivity.
Qed.

(** The value of [int(ax - w / 2)]. *)
Lemma trunc_half (ax w : Z) :
  trunc (inject_Z ax - inject_Z w / 2) = Z.quot (2 * ax - w) 2.
Proof.
  assert (inject_Z ax - inject_Z w / 2 == (2 * ax - w) # 2)%Q as E.
  { unfold Qeq, Qminus, Qplus, Qopp, Qdiv, Qmult, Qinv, inject_Z; simpl; lia. }
  rewrite (trunc_comp _ _ E); unfold trunc.
  destruct (Qle_bool 0 ((2 * ax - w) # 2)) eqn:Hs.
  - apply Qle_bool_iff in Hs.
    unfold Qle in Hs; simpl in Hs.
    unfold Qfloor. rewrite Z.quot_div_nonneg by lia. reflexivity.
  - assert (2 * ax - w < 0) as Hneg.
    { destruct (Z_lt_le_dec (2 * ax - w) 0) as [|Hge]; [assumption|].
      assert (Qle_bool 0 ((2 * ax - w) # 2) = true) as Ht
        by (apply Qle_bool_iff; unfold Qle; simpl; lia).
      congruence. }
    unfold Qceiling, Qfloor; simpl.
    rewrite <- (Z.opp_involutive (2 * ax - w)) at 2.
    rewrite Z.quot_opp_l by lia.
    rewrite Z.quot_div_nonneg by lia.
    reflexivity.
Qed.

Lemma in_range (lo hi z : Z) : In z (range lo hi) <-> lo <= z < hi.
Proof.
  unfold range; rewrite in_map_iff; split.
  - intros (k & <- & Hk); apply in_seq in Hk; lia.
  - intros H; exists (Z.to_nat (z - lo)); split; [lia|].
    apply in_seq; lia.
Qed.

Lemma NoDup_range (lo hi : Z) : List.NoDup (range lo hi).
Proof.
  unfold range.
  apply Finite.Injective_map_NoDup; [|apply List.seq_NoDup].
  intros a b H; lia.
Qed.

Lemma length_range (lo hi : Z) : length (range lo hi) = Z.to_nat (hi - lo).
Proof. unfold range; rewrite length_map, length_seq; reflexivity. Qed.

Lemma nth_error_range (lo hi i : Z) :
  0 <= i < hi - lo -> nth_error (range lo hi) (Z.to_nat i) = Some (lo + i).
Proof.
  intros H; unfold range.
  rewrite nth_error_map, nth_error_seq.
  destruct (Nat.ltb_spec (Z.to_nat i) (Z.to_nat (hi - lo))); [|lia].
  simpl; f_equal; lia.
Qed.

Lemma binary64_proper : Proper (Qeq ==> Qeq) Binary64.binary64.
Proof.
  intros p q E; unfold Binary64.binary64.
  rewrite (Qred_complete p q E); reflexivity.
Qed.

(** A float operation whose exact result is the integer [z] yields [z]
    when [z] is a float. *)
Lemma rnd_int (rnd : Q -> Q) (q : Q) (z : Z) :
  Proper (Qeq ==> Qeq) rnd -> RenderSpec.exact_at rnd (inject_Z z) ->
  (q == inject_Z z)%Q -> (rnd q == inject_Z z)%Q.
Proof.
  intros HP Hz E; rewrite (HP q (inject_Z z) E); exact Hz.
Qed.

End NumberFacts.

(* ================================================================== *)
(** * Properties of the layout *)
(* ================================================================== *)

Section LayoutProperties.
Import PyStr Renderer RenderSpec.

Lemma aligned_x_placed (rnd : Q -> Q) (align : string) (H ax ay w h : Z) :
  Proper (Qeq ==> Qeq) rnd -> halves_exact rnd ax w ->
  placed align H ax ay w h (py_int (aligned_x rnd align ax w), H - ay - h).
Proof.
  intros HP (Ha & Hw & Hd).
  unfold placed, aligned_x; cbn [fst snd].
  split; [reflexivity|].
  split; [intros ->; reflexivity|].
  split.
  - intros ->; cbn.
    assert (rnd (float_of_int rnd ax - rnd (inject_Z w / 2))
            == inject_Z ax - inject_Z w / 2)%Q as E.
    { transitivity (rnd (inject_Z ax - inject_Z w / 2)%Q); [|exact Hd].
      apply HP; unfold float_of_int.
      unfold exact_at in Ha, Hw; rewrite Ha, Hw; reflexivity. }
    rewrite (trunc_comp _ _ E).
    split; [apply trunc_within_one | apply trunc_half].
  - split; [intros ->; reflexivity|].
    intros Hl Hc Hr.
    apply String.eqb_neq in Hl, Hc, Hr.
    rewrite Hl, Hc, Hr; reflexivity.
Qed.

(** C4.  For both roles and every alignment the position handed to the
    compositor has [draw_y = H - ay - h]; its [draw_x] is [ax] for left,
    [int(ax - w/2)] for center, which is less than one unit away from
    [ax - w/2], and [ax - w] for right; any other alignment is placed as
    left.  The centred case forms the floats [w / 2] and [ax - w / 2];
    they are taken to be exact, as binary64 is on half-integers of the
    size of a canvas. *)
Theorem layout_law (bk : backend) (cs : settings) (img_height : Z)
    (original_text translated : str) (font_original font_translation : font) :
  translated <> [] ->
  Proper (Qeq ==> Qeq) (round64 bk) ->
  halves_exact (round64 bk) (custom_x_original cs)
    (ink_width bk original_text font_original) ->
  halves_exact (round64 bk) (custom_x_translation cs)
    (ink_width bk translated font_translation) ->
  placed (text_align cs) img_height
    (custom_x_original cs) (custom_y_original cs)
    (ink_width bk original_text font_original)
    (ink_height bk original_text font_original)
    (position_original bk cs img_height original_text font_original)
  /\ placed (text_align cs) img_height
       (custom_x_translation cs) (custom_y_translation cs)
       (ink_width bk translated font_translation)
       (ink_height bk translated font_translation)
       (position_translation bk cs img_height (Some translated)
          font_translation).
Proof.
  intros Ht HP Ho Htr; split.
  - unfold position_original, ink_width, ink_height in *.
    destruct (textbbox bk original_text font_original) as [[[b0 b1] b2] b3].
    apply aligned_x_placed; assumption.
  - unfold position_translation, ink_width, ink_height in *.
    destruct translated as [|c rest]; [congruence|].
    destruct (textbbox bk (c :: rest) font_translation) as [[[b0 b1] b2] b3].
    apply aligned_x_placed; assumption.
Qed.

Lemma layout_law_witness :
  position_original (Samples.fixed_bbox (0, 0, 50, 20)) Samples.scenario_D 720
    (lit "Hello") Samples.arial60 = (10, 690)
  /\ position_translation (Samples.fixed_bbox (0, 0, 50, 20))
       default_settings 1080 (Some (lit "Hi")) Samples.arial60 = (615, 180).
Proof.
  assert (halves_exact Binary64.binary64 10 50) as H10
    by (repeat split; vm_compute; reflexivity).
  assert (halves_exact Binary64.binary64 640 50) as H640
    by (repeat split; vm_compute; reflexivity).
  assert (lit "Hi" <> []) as Hne by discriminate.
  split.
  - pose proof (proj1 (layout_law (Samples.fixed_bbox (0, 0, 50, 20))
                         Samples.scenario_D 720 (lit "Hello") (lit "Hi")
                         Samples.arial60 Samples.arial60 Hne
                         binary64_proper H10 H10))
      as (Hy & Hx & _).
    specialize (Hx eq_refl).
    destruct (position_original _ _ _ _ _) as [x y]; cbn in Hx, Hy.
    rewrite Hx, Hy; reflexivity.
  - pose proof (proj2 (layout_law (Samples.fixed_bbox (0, 0, 50, 20))
                         default_settings 1080 (lit "Hello") (lit "Hi")
                         Samples.arial60 Samples.arial60 Hne
                         binary64_proper H640 H640))
      as (Hy & _ & Hx & _).
    destruct (Hx eq_refl) as [_ Hx'].
    destruct (position_translation _ _ _ _ _) as [x y]; cbn in Hx', Hy.
    rewrite Hx', Hy; reflexivity.
Defined.

End LayoutProperties.

(* ================================================================== *)
(** * Properties of the outline *)
(* ================================================================== *)

Section OutlineProperties.
Import PyStr Renderer RenderSpec.

Lemma NoDup_flat_map {A B : Type} (f : A -> list B) (l : list A) :
  List.NoDup l ->
  (forall a, In a l -> List.NoDup (f a)) ->
  (forall a a' b, In a l -> In a' l -> In b (f a) -> In b (f a') -> a = a') ->
  List.NoDup (flat_map f l).
Proof.
  induction 1 as [|a l Ha Hl IH]; intros Hf Hd; simpl; [constructor|].
  apply List.NoDup_app.
  - apply Hf; left; reflexivity.
  - apply IH.
    + intros a' Ha'; apply Hf; right; exact Ha'.
    + intros a1 a2 b H1 H2; apply Hd; right; assumption.
  - intros b Hb Hin.
    apply in_flat_map in Hin as (a' & Ha' & Hb').
    assert (a = a') as <- by (apply (Hd a a' b); auto using in_eq, in_cons).
    contradiction.
Qed.

Lemma outline_test_spec (W dx dy : Z) :
  outline_test W dx dy = true <->
  (Z.abs dx = W \/ Z.abs dy = W
   \/ (Z.abs dx < W /\ Z.abs dy < W
       /\ dx * dx + dy * dy >= (W - 1) * (W - 1))).
Proof.
  unfold outline_test.
  rewrite !orb_true_iff, !andb_true_iff, !Z.eqb_eq, !Z.ltb_lt, Z.geb_ge.
  tauto.
Qed.

Lemma in_outline_offsets (W dx dy : Z) :
  In (dx, dy) (outline_offsets W) <-> on_outline W dx dy.
Proof.
  unfold outline_offsets, on_outline.
  rewrite in_flat_map; split.
  - intros (x & Hx & Hin).
    apply in_flat_map in Hin as (y & Hy & Hin).
    apply in_range in Hx, Hy.
    destruct (outline_test W x y) eqn:Ht; [|contradiction].
    destruct Hin as [[= <- <-]|[]].
    apply outline_test_spec in Ht.
    split; [lia|]. split; [lia | exact Ht].
  - intros (Hx & Hy & Ht).
    exists dx; split; [apply in_range; lia|].
    apply in_flat_map; exists dy; split; [apply in_range; lia|].
    apply outline_test_spec in Ht; rewrite Ht; left; reflexivity.
Qed.

Lemma NoDup_outline_offsets (W : Z) : List.NoDup (outline_offsets W).
Proof.
  unfold outline_offsets.
  apply NoDup_flat_map; [apply NoDup_range| |].
  - intros dx _.
    apply NoDup_flat_map; [apply NoDup_range| |].
    + intros dy _; destruct (outline_test W dx dy); repeat constructor.
      intros [].
    + intros y y' b _ _ H1 H2.
      destruct (outline_test W dx y); [|contradiction].
      destruct (outline_test W dx y'); [|contradiction].
      destruct H1 as [<-|[]]; destruct H2 as [[=]|[]]; congruence.
  - intros x x' b _ _ H1 H2.
    apply in_flat_map in H1 as (y & _ & H1), H2 as (y' & _ & H2).
    destruct (outline_test W x y); [|contradiction].
    destruct (outline_test W x' y'); [|contradiction].
    destruct H1 as [<-|[]]; destruct H2 as [[=]|[]]; congruence.
Qed.

(** C5.  With the outline enabled and a width [W > 0] the outline layer
    is one stamp of the glyph run in the outline colour per offset of
    [outline_offsets W], each offset once, and an offset [(dx, dy)] is
    among them exactly when [|dx| <= W], [|dy| <= W] and it is on the
    outer ring or strictly inside it with [dx^2 + dy^2 >= (W-1)^2].  With
    the outline disabled or [W <= 0] the layer is empty. *)
Theorem outline_stamps (text : str) (position : Z * Z) (f : font)
    (eff : effects) :
  (forall W, default false (outline_on eff) = true ->
     outline_width eff = Some W -> 0 < W ->
     outline_layer text position f eff
     = map (fun d =>
              DrawText (fst position + fst d, snd position + snd d) text f
                (with_alpha (default [0; 0; 0; 255] (outline_color eff)) 255))
         (outline_offsets W)
     /\ List.NoDup (outline_offsets W)
     /\ (forall dx dy, In (dx, dy) (outline_offsets W) <-> on_outline W dx dy))
  /\ (default false (outline_on eff) = false
      \/ default 0 (outline_width eff) <= 0 ->
      outline_layer text position f eff = []).
Proof.
  destruct position as [x y]; split.
  - intros W Hon HW Hpos; split; [|split].
    + unfold outline_layer; rewrite Hon, HW.
      cbn [default from_option id andb].
      destruct (Z.gtb_spec W 0) as [_|]; [|lia].
      reflexivity.
    + apply NoDup_outline_offsets.
    + intros dx dy; apply in_outline_offsets.
  - intros [Hoff|Hw]; unfold outline_layer.
    + rewrite Hoff; reflexivity.
    + destruct (Z.gtb_spec (default 0 (outline_width eff)) 0); [lia|].
      rewrite andb_false_r; reflexivity.
Qed.

Lemma outline_stamps_witness :
  outline_layer (lit "Hi") (100, 200) Samples.arial60
    (effects_translation default_settings)
  = map (fun d => DrawText (100 + fst d, 200 + snd d) (lit "Hi")
                    Samples.arial60 [0; 0; 0; 255])
      [(-1, -1); (-1, 0); (-1, 1); (0, -1); (0, 0); (0, 1);
       (1, -1); (1, 0); (1, 1)].
Proof.
  exact (proj1 (proj1 (outline_stamps (lit "Hi") (100, 200) Samples.arial60
                         (effects_translation default_settings))
                  1 eq_refl eq_refl eq_refl)).
Defined.

End OutlineProperties.

(* ================================================================== *)
(** * Properties of the compositor *)
(* ================================================================== *)

Section CompositorProperties.
Import PyStr Renderer RenderSpec.

Lemma outline_layer_stamps (text : str) (position : Z * Z) (f : font)
    (eff : effects) :
  Forall (fun op =>
            exists xy, op = DrawText xy text f
                              (with_alpha
                                 (default [0; 0; 0; 255] (outline_color eff))
                                 255))
    (outline_layer text position f eff).
Proof.
  unfold outline_layer; destruct position as [x y].
  destruct (default false (outline_on eff)
            && (default 0 (outline_width eff) >? 0)); [|constructor].
  apply List.Forall_forall; intros op Hin.
  apply in_map_iff in Hin as (d & <- & _); eexists; reflexivity.
Qed.

Lemma shadow_layer_stamps (text : str) (position : Z * Z) (f : font)
    (eff : effects) :
  Forall (fun op =>
            exists xy, op = DrawText xy text f
                              (with_alpha
                                 (default [0; 0; 0; 128] (shadow_color eff))
                                 128))
    (shadow_layer text position f eff).
Proof.
  unfold shadow_layer; destruct position as [x y].
  destruct (default false (shadow_on eff)); [|constructor].
  destruct (negb (default 0 (shadow_offset_x eff) =? 0)
            || negb (default 0 (shadow_offset_y eff) =? 0)); [|constructor].
  repeat constructor; eexists; reflexivity.
Qed.

Lemma fill_layer_zero_ink (bk : backend) (text : str) (position : Z * Z)
    (f : font) (fill_color : color) (eff : effects) :
  ink_width bk text f <= 0 \/ ink_height bk text f <= 0 ->
  default false (gradient_on eff) = true ->
  fill_layer bk text position f fill_color eff = ([], Returned).
Proof.
  unfold fill_layer, ink_width, ink_height; intros Hink ->.
  destruct (textbbox bk text f) as [[[b0 b1] b2] b3].
  destruct (Z.leb_spec (b2 - b0) 0); [reflexivity|].
  destruct (Z.leb_spec (b3 - b1) 0); [reflexivity|].
  lia.
Qed.

(** C6, as amended.  For a glyph run whose measured ink width or height
    is [<= 0] the compositor returns without raising, whatever the
    effects; it pastes no gradient, and with the gradient fill enabled it
    draws no fill layer and builds no mask or gradient image.  The calls
    it still issues are [draw.text] calls of that same run: the outline
    stamps, the shadow stamp and, with solid fill, the fill stamp, which
    the code does not guard by the ink size. *)
Theorem zero_ink_run (bk : backend) (text : str) (position : Z * Z)
    (f : font) (fill_color : color) (eff : effects) :
  ink_width bk text f <= 0 \/ ink_height bk text f <= 0 ->
  snd (draw_text_with_effects bk text position f fill_color eff) = Returned
  /\ Forall (stamps text f)
       (fst (draw_text_with_effects bk text position f fill_color eff))
  /\ (default false (gradient_on eff) = true ->
      fill_layer bk text position f fill_color eff = ([], Returned)
      /\ fst (draw_text_with_effects bk text position f fill_color eff)
         = outline_layer text position f eff
           ++ shadow_layer text position f eff)
  /\ (default false (gradient_on eff) = false ->
      fst (draw_text_with_effects bk text position f fill_color eff)
      = outline_layer text position f eff
        ++ shadow_layer text position f eff
        ++ [DrawText position text f fill_color]).
Proof.
  intros Hink.
  assert (Forall (stamps text f) (outline_layer text position f eff)) as Ho.
  { eapply List.Forall_impl; [|apply outline_layer_stamps].
    intros op (xy & ->); eexists _, _; reflexivity. }
  assert (Forall (stamps text f) (shadow_layer text position f eff)) as Hs.
  { eapply List.Forall_impl; [|apply shadow_layer_stamps].
    intros op (xy & ->); eexists _, _; reflexivity. }
  unfold draw_text_with_effects.
  destruct (default false (gradient_on eff)) eqn:Hg.
  - rewrite (fill_layer_zero_ink bk text position f fill_color eff Hink Hg).
    cbn [fst snd]; rewrite app_nil_r.
    split; [reflexivity|].
    split; [apply List.Forall_app; split; assumption|].
    split; [intros _; split; reflexivity | discriminate].
  - unfold fill_layer; rewrite Hg; cbn [fst snd].
    split; [reflexivity|].
    split.
    + apply List.Forall_app; split; [assumption|].
      apply List.Forall_app; split; [assumption|].
      repeat constructor; eexists _, _; reflexivity.
    + split; [discriminate | intros _; reflexivity].
Qed.

Lemma zero_ink_run_witness :
  draw_text_with_effects (Samples.fixed_bbox (0, 0, 0, 0)) [] (10, 690)
    Samples.arial60 [255; 255; 0; 255]
    (mkEffects None None None None None None None (Some true) None None)
  = ([], Returned).
Proof.
  assert (ink_width (Samples.fixed_bbox (0, 0, 0, 0)) [] Samples.arial60 <= 0)
    as Hink by (unfold ink_width; simpl; lia).
  pose proof (zero_ink_run (Samples.fixed_bbox (0, 0, 0, 0)) [] (10, 690)
                Samples.arial60 [255; 255; 0; 255]
                (mkEffects None None None None None None None (Some true)
                   None None)
                (or_introl Hink))
    as (Hr & _ & Hg & _).
  destruct (Hg eq_refl) as [_ Hops].
  destruct (draw_text_with_effects _ _ _ _ _ _) as [ops r].
  cbn in Hr, Hops; rewrite Hr, Hops; reflexivity.
Defined.

(** C6 as stated fails: for the empty string, whose ink box is empty,
    the compositor still draws.  With no effects and solid fill it calls
    [draw.text] once; with the default translation effects it calls it
    eleven times; with an outline and the gradient fill it makes the
    nine outline calls before the ink-size guard of the gradient path is
    reached. *)
Lemma zero_ink_run_is_still_drawn :
  ink_width (Samples.fixed_bbox (0, 0, 0, 0)) [] Samples.arial60 <= 0
  /\ draw_text_with_effects (Samples.fixed_bbox (0, 0, 0, 0)) [] (10, 690)
       Samples.arial60 [255; 255; 0; 255] no_effects
     = ([DrawText (10, 690) [] Samples.arial60 [255; 255; 0; 255]], Returned)
  /\ length (fst (draw_text_with_effects (Samples.fixed_bbox (0, 0, 0, 0)) []
                    (10, 690) Samples.arial60 [220; 220; 220; 255]
                    (effects_translation default_settings))) = 11%nat
  /\ fst (draw_text_with_effects (Samples.fixed_bbox (0, 0, 0, 0)) []
            (10, 690) Samples.arial60 [220; 220; 220; 255]
            Samples.gradient_and_outline)
     = map (fun d => DrawText (10 + fst d, 690 + snd d) [] Samples.arial60
                       [0; 0; 0; 255])
         [(-1, -1); (-1, 0); (-1, 1); (0, -1); (0, 0); (0, 1);
          (1, -1); (1, 0); (1, 1)].
Proof.
  split; [unfold ink_width; simpl; lia|].
  split; [reflexivity|].
  split; [reflexivity|].
  reflexivity.
Qed.

Lemma with_alpha_3 (c : color) (alpha : Z) :
  length c = 3%nat -> with_alpha c alpha = c ++ [alpha].
Proof. intros H; unfold with_alpha; rewrite H; reflexivity. Qed.

Lemma with_alpha_4 (c : color) (alpha : Z) :
  length c = 4%nat -> with_alpha c alpha = c.
Proof. intros H; unfold with_alpha; rewrite H; reflexivity. Qed.

(** C8, as amended.  An outline colour given with three channels is
    drawn with alpha 255 appended, a shadow colour given with three
    channels with alpha 128 appended, and a colour given with four
    channels is drawn as given.  The solid fill colour is handed to
    [draw.text] exactly as the caller gave it, with three channels or
    four: the compositor appends no alpha to it. *)
Theorem alpha_defaults (bk : backend) (text : str) (position : Z * Z)
    (f : font) (fill_color : color) (eff : effects) (c : color) :
  (length c = 3%nat -> outline_color eff = Some c ->
     Forall (fun op => exists xy, op = DrawText xy text f (c ++ [255]))
       (outline_layer text position f eff))
  /\ (length c = 3%nat -> shadow_color eff = Some c ->
      Forall (fun op => exists xy, op = DrawText xy text f (c ++ [128]))
        (shadow_layer text position f eff))
  /\ (length c = 4%nat -> outline_color eff = Some c ->
      Forall (fun op => exists xy, op = DrawText xy text f c)
        (outline_layer text position f eff))
  /\ (length c = 4%nat -> shadow_color eff = Some c ->
      Forall (fun op => exists xy, op = DrawText xy text f c)
        (shadow_layer text position f eff))
  /\ (default false (gradient_on eff) = false ->
      fill_layer bk text position f fill_color eff
      = ([DrawText position text f fill_color], Returned)).
Proof.
  pose proof (outline_layer_stamps text position f eff) as Ho.
  pose proof (shadow_layer_stamps text position f eff) as Hs.
  repeat split.
  - intros Hlen Hc; rewrite Hc in Ho; cbn [default from_option id] in Ho.
    rewrite (with_alpha_3 c 255 Hlen) in Ho; exact Ho.
  - intros Hlen Hc; rewrite Hc in Hs; cbn [default from_option id] in Hs.
    rewrite (with_alpha_3 c 128 Hlen) in Hs; exact Hs.
  - intros Hlen Hc; rewrite Hc in Ho; cbn [default from_option id] in Ho.
    rewrite (with_alpha_4 c 255 Hlen) in Ho; exact Ho.
  - intros Hlen Hc; rewrite Hc in Hs; cbn [default from_option id] in Hs.
    rewrite (with_alpha_4 c 128 Hlen) in Hs; exact Hs.
  - intros Hg; unfold fill_layer; rewrite Hg; reflexivity.
Qed.

Lemma alpha_defaults_witness :
  outline_layer (lit "Hi") (0, 0) Samples.arial60 Samples.rgb_effects
  = map (fun d => DrawText d (lit "Hi") Samples.arial60 [40; 50; 60; 255])
      [(-1, -1); (-1, 0); (-1, 1); (0, -1); (0, 0); (0, 1);
       (1, -1); (1, 0); (1, 1)]
  /\ Forall (fun op => exists xy,
                op = DrawText xy (lit "Hi") Samples.arial60 [40; 50; 60; 255])
       (outline_layer (lit "Hi") (0, 0) Samples.arial60 Samples.rgb_effects).
Proof.
  split; [reflexivity|].
  exact (proj1 (alpha_defaults (Samples.fixed_bbox (0, 0, 50, 20)) (lit "Hi")
                  (0, 0) Samples.arial60 [255; 255; 0] Samples.rgb_effects
                  [40; 50; 60]) eq_refl eq_refl).
Defined.

(** C8 as stated fails for the solid fill colour: given with three
    channels, it reaches [draw.text] with three channels. *)
Lemma solid_fill_gets_no_alpha :
  draw_text_with_effects (Samples.fixed_bbox (0, 0, 50, 20)) (lit "Hi")
    (10, 690) Samples.arial60 [255; 255; 0] no_effects
  = ([DrawText (10, 690) (lit "Hi") Samples.arial60 [255; 255; 0]], Returned)
  /\ [255; 255; 0] <> [255; 255; 0; 255].
Proof. split; [reflexivity | discriminate]. Qed.

End CompositorProperties.

(* ================================================================== *)
(** * Properties of the gradient *)
(* ================================================================== *)

Section GradientProperties.
Import PyStr Renderer RenderSpec.

Lemma gradient_channel_lerp (rnd : Q -> Q) (cs ce : color) (ratio : Q)
    (k : nat) (s e : Z) :
  nth_error cs k = Some s -> nth_error ce k = Some e ->
  gradient_channel rnd cs ce ratio k = Some (lerp_channel rnd s e ratio).
Proof.
  intros Hs He; unfold gradient_channel; rewrite Hs, He; reflexivity.
Qed.

Lemma gradient_row_lerp (rnd : Q -> Q) (s0 s1 s2 s3 e0 e1 e2 e3 H i : Z) :
  gradient_row rnd [s0; s1; s2; s3] [e0; e1; e2; e3] H i
  = Some (scanline rnd s0 s1 s2 s3 e0 e1 e2 e3 H i).
Proof.
  unfold gradient_row, truediv, scanline.
  destruct (Z.eqb_spec (Z.max 1 (H - 1)) 0) as [E|_]; [lia|].
  set (cs := [s0; s1; s2; s3]); set (ce := [e0; e1; e2; e3]).
  rewrite (gradient_channel_lerp rnd cs ce _ 0%nat s0 e0 eq_refl eq_refl),
    (gradient_channel_lerp rnd cs ce _ 1%nat s1 e1 eq_refl eq_refl),
    (gradient_channel_lerp rnd cs ce _ 2%nat s2 e2 eq_refl eq_refl),
    (gradient_channel_lerp rnd cs ce _ 3%nat s3 e3 eq_refl eq_refl).
  reflexivity.
Qed.

Lemma gradient_rows_of_map (rnd : Q -> Q) (s0 s1 s2 s3 e0 e1 e2 e3 H : Z)
    (rows : list Z) :
  gradient_rows_of rnd [s0; s1; s2; s3] [e0; e1; e2; e3] H rows
  = Some (map (scanline rnd s0 s1 s2 s3 e0 e1 e2 e3 H) rows).
Proof.
  induction rows as [|i rows IH]; simpl; [reflexivity|].
  rewrite gradient_row_lerp, IH; reflexivity.
Qed.

(** Without rounding the float expression is the linear interpolation. *)
Lemma lerp_unrounded (s e : Z) (t : Q) :
  (lerp (fun q => q) s e t
   == inject_Z s + (inject_Z e - inject_Z s) * t)%Q.
Proof. unfold lerp; ring. Qed.

(** At ratio 0 the channel is the start value, if it is a float. *)
Lemma lerp_channel_start (rnd : Q -> Q) (s e : Z) (t : Q) :
  Proper (Qeq ==> Qeq) rnd ->
  exact_at rnd (inject_Z 0) -> exact_at rnd (inject_Z 1) ->
  exact_at rnd (inject_Z s) -> (t == 0)%Q ->
  lerp_channel rnd s e t = s.
Proof.
  intros HP H0 H1 Hs Ht.
  unfold lerp_channel, lerp.
  rewrite <- (trunc_inject_Z s) at 2.
  apply trunc_comp.
  assert (rnd (rnd (inject_Z 1) - t) == inject_Z 1)%Q as E1.
  { apply (rnd_int rnd _ 1 HP H1).
    unfold exact_at in H1; rewrite H1, Ht.
    change (inject_Z 1) with 1%Q; ring. }
  assert (rnd (rnd (inject_Z s) * rnd (rnd (inject_Z 1) - t))
          == inject_Z s)%Q as E2.
  { apply (rnd_int rnd _ s HP Hs).
    unfold exact_at in Hs; rewrite Hs, E1.
    change (inject_Z 1) with 1%Q; ring. }
  assert (rnd (rnd (inject_Z e) * t) == inject_Z 0)%Q as E3.
  { apply (rnd_int rnd _ 0 HP H0).
    rewrite Ht; change (inject_Z 0) with 0%Q; ring. }
  apply (rnd_int rnd _ s HP Hs).
  rewrite E2, E3; change (inject_Z 0) with 0%Q; ring.
Qed.

(** C7.  In the gradient fill path, for an ink box of height [H >= 1]
    (and positive width) and start and end colours of four channels, one
    gradient image of [H] scanlines is pasted; for every [i] with
    [0 <= i < H] the division [i / max(1, H-1)] is defined and scanline
    [i] is, channel by channel, [int()] of the interpolation
    [start * (1 - ratio) + end * ratio] evaluated in floats at that
    ratio, an expression which without rounding is the linear
    interpolation of the two colours.  For [H = 1] the divisor is 1, the
    ratio is 0 and the single scanline is the start colour; this uses
    only that 0, 1 and the start channels are floats. *)
Theorem gradient_scanlines (bk : backend) (text : str) (position : Z * Z)
    (f : font) (fill_color : color) (eff : effects)
    (s0 s1 s2 s3 e0 e1 e2 e3 : Z) :
  default false (gradient_on eff) = true ->
  with_alpha (default [255; 0; 0; 255] (gradient_color_start eff)) 255
  = [s0; s1; s2; s3] ->
  with_alpha (default [0; 0; 255; 255] (gradient_color_end eff)) 255
  = [e0; e1; e2; e3] ->
  0 < ink_width bk text f -> 1 <= ink_height bk text f ->
  exists rows box mask_xy,
    fill_layer bk text position f fill_color eff
    = ([PasteGradient box rows text mask_xy f], Returned)
    /\ length rows = Z.to_nat (ink_height bk text f)
    /\ (forall i, 0 <= i < ink_height bk text f ->
          exists ratio,
            truediv (round64 bk) i (Z.max 1 (ink_height bk text f - 1))
            = Some ratio
            /\ ratio
               = round64 bk
                   (inject_Z i / inject_Z (Z.max 1 (ink_height bk text f - 1)))
            /\ nth_error rows (Z.to_nat i)
               = Some [lerp_channel (round64 bk) s0 e0 ratio;
                       lerp_channel (round64 bk) s1 e1 ratio;
                       lerp_channel (round64 bk) s2 e2 ratio;
                       lerp_channel (round64 bk) s3 e3 ratio])
    /\ (forall s e t,
          (lerp (fun q => q) s e t
           == inject_Z s + (inject_Z e - inject_Z s) * t)%Q)
    /\ (ink_height bk text f = 1 ->
        Proper (Qeq ==> Qeq) (round64 bk) ->
        Forall (fun z => exact_at (round64 bk) (inject_Z z))
          [0; 1; s0; s1; s2; s3] ->
        Z.max 1 (ink_height bk text f - 1) = 1
        /\ (exists ratio,
              truediv (round64 bk) 0 (Z.max 1 (ink_height bk text f - 1))
              = Some ratio /\ (ratio == 0)%Q)
        /\ rows = [[s0; s1; s2; s3]]).
Proof.
  intros Hg Hs He Hw Hh.
  unfold fill_layer; rewrite Hg, Hs, He.
  unfold ink_width, ink_height in *.
  destruct (textbbox bk text f) as [[[b0 b1] b2] b3].
  destruct (Z.leb_spec (b2 - b0) 0); [lia|].
  destruct (Z.leb_spec (b3 - b1) 0); [lia|].
  cbn [orb]. unfold gradient_image; rewrite gradient_rows_of_map.
  eexists _, _, _; split; [reflexivity|].
  split; [rewrite length_map, length_range; f_equal; lia|].
  split; [|split; [exact lerp_unrounded|]].
  - intros i Hi.
    exists (round64 bk (inject_Z i / inject_Z (Z.max 1 (b3 - b1 - 1)))%Q).
    split; [|split; [reflexivity|]].
    + unfold truediv.
      destruct (Z.eqb_spec (Z.max 1 (b3 - b1 - 1)) 0); [lia | reflexivity].
    + rewrite nth_error_map, nth_error_range by lia.
      reflexivity.
  - intros H1 HP Hex; rewrite H1.
    apply List.Forall_cons_iff in Hex as [X0 Hex].
    apply List.Forall_cons_iff in Hex as [X1 Hex].
    apply List.Forall_cons_iff in Hex as [Xs0 Hex].
    apply List.Forall_cons_iff in Hex as [Xs1 Hex].
    apply List.Forall_cons_iff in Hex as [Xs2 Hex].
    apply List.Forall_cons_iff in Hex as [Xs3 _].
    assert (round64 bk (inject_Z 0 / inject_Z 1) == 0)%Q as E0.
    { apply (rnd_int (round64 bk) _ 0 HP X0); reflexivity. }
    split; [reflexivity|].
    split; [eexists; split; [reflexivity | exact E0]|].
    change (range 0 1) with [0]; cbn [map]; unfold scanline.
    change (Z.max 1 (1 - 1)) with 1.
    rewrite !(lerp_channel_start (round64 bk) _ _ _ HP X0 X1) by assumption.
    reflexivity.
Qed.

Lemma gradient_scanlines_witness :
  exists box mask_xy,
    fill_layer (Samples.fixed_bbox (0, 0, 50, 1)) (lit "_") (10, 690)
      Samples.arial60 [220; 220; 220; 255] Samples.gradient_and_outline
    = ([PasteGradient box [[200; 200; 200; 255]] (lit "_") mask_xy
          Samples.arial60], Returned).
Proof.
  assert (0 < ink_width (Samples.fixed_bbox (0, 0, 50, 1)) (lit "_")
                Samples.arial60) as Hw by (unfold ink_width; simpl; lia).
  assert (1 <= ink_height (Samples.fixed_bbox (0, 0, 50, 1)) (lit "_")
                 Samples.arial60) as Hh by (unfold ink_height; simpl; lia).
  assert (Forall (fun z => exact_at Binary64.binary64 (inject_Z z))
            [0; 1; 200; 200; 200; 255]) as Hex
    by (repeat constructor; vm_compute; reflexivity).
  destruct (gradient_scanlines (Samples.fixed_bbox (0, 0, 50, 1)) (lit "_")
              (10, 690) Samples.arial60 [220; 220; 220; 255]
              Samples.gradient_and_outline
              200 200 200 255 250 250 250 255
              eq_refl eq_refl eq_refl Hw Hh)
    as (rows & box & mask_xy & Hfill & _ & _ & _ & H1).
  destruct (H1 eq_refl binary64_proper Hex) as (_ & _ & Hrows).
  exists box, mask_xy; rewrite <- Hrows; exact Hfill.
Defined.

End GradientProperties.

(* ================================================================== *)
(** * Facts about the store *)
(* ================================================================== *)

Section StoreFacts.
Import PyStr PyObj SettingsSpec.

Lemma unchanged_refl (P : loc -> Prop) (h : store) : unchanged_except P h h.
Proof. intros l _ _; reflexivity. Qed.

Lemma unchanged_trans (P : loc -> Prop) (h1 h2 h3 : store) :
  unchanged_except P h1 h2 -> unchanged_except P h2 h3 ->
  unchanged_except P h1 h3.
Proof.
  intros H12 H23 l Hl HP.
  rewrite <- (H12 l Hl HP).
  apply H23; [|exact HP].
  rewrite (H12 l Hl HP); exact Hl.
Qed.

Lemma unchanged_weaken (P Q : loc -> Prop) (h h' : store) :
  (forall l, P l -> Q l) -> unchanged_except P h h' -> unchanged_except Q h h'.
Proof. intros HPQ H l Hl HQ; apply H; [exact Hl | intros HP; apply HQ, HPQ, HP]. Qed.

Lemma fresh_unused (h : store) : h !! fresh (dom h) = None.
Proof. apply not_elem_of_dom, is_fresh. Qed.

Lemma dict_copy_fresh (h : store) (l : loc) :
  h !! snd (dict_copy h l) = None.
Proof. apply fresh_unused. Qed.

Lemma dict_copy_lookup (h : store) (l l0 : loc) :
  is_Some (h !! l0) -> fst (dict_copy h l) !! l0 = h !! l0.
Proof.
  intros Hl0; unfold dict_copy; cbn [fst].
  apply lookup_insert_ne.
  intros E; rewrite <- E, fresh_unused in Hl0.
  destruct Hl0 as [? ?]; discriminate.
Qed.

Lemma dict_copy_new (h : store) (l : loc) :
  deref (fst (dict_copy h l)) (snd (dict_copy h l)) = deref h l.
Proof.
  unfold dict_copy, deref; cbn [fst snd].
  rewrite lookup_insert_eq; reflexivity.
Qed.

Lemma dict_copy_preserved (h : store) (l : loc) :
  preserved h (fst (dict_copy h l)).
Proof. intros l0 Hl0 _; apply dict_copy_lookup, Hl0. Qed.

Lemma dict_update_other (h : store) (target source l : loc) :
  l <> target -> dict_update h target source !! l = h !! l.
Proof. intros Hne; unfold dict_update; apply lookup_insert_ne; congruence. Qed.

Lemma dict_del_other (h : store) (l0 l : loc) (key : string) :
  l <> l0 -> dict_del h l0 key !! l = h !! l.
Proof. intros Hne; unfold dict_del; apply lookup_insert_ne; congruence. Qed.

Lemma dict_del_same (h : store) (l : loc) (key : string) :
  dict_del h l key !! l = Some (delete key (deref h l)).
Proof. unfold dict_del; apply lookup_insert_eq. Qed.

Lemma deref_lookup (h : store) (l : loc) (d : dict) :
  h !! l = Some d -> deref h l = d.
Proof. intros H; unfold deref; rewrite H; reflexivity. Qed.

Lemma deref_eq (h h' : store) (l : loc) :
  h' !! l = h !! l -> deref h' l = deref h l.
Proof. intros H; unfold deref; rewrite H; reflexivity. Qed.

(** [render_subtitle_image] only creates [current_settings]. *)
Lemma render_subtitle_image_preserved (bk : Renderer.backend) (h : store)
    (original_text : str) (translated_text : option str)
    (filename_base : str) (settings : option loc) :
  preserved h
    (fst (Renderer.render_subtitle_image bk h original_text translated_text
            filename_base settings)).
Proof.
  unfold Renderer.render_subtitle_image.
  pose proof (dict_copy_lookup h Renderer.DEFAULT_SETTINGS) as Hc.
  pose proof (dict_copy_fresh h Renderer.DEFAULT_SETTINGS) as Hf.
  destruct (dict_copy h Renderer.DEFAULT_SETTINGS) as [h1 cur].
  cbn [fst snd] in *.
  intros l Hl _.
  assert (l <> cur) as Hne.
  { intros ->; rewrite Hf in Hl; destruct Hl as [? ?]; discriminate. }
  destruct settings as [c|]; [|apply Hc, Hl].
  destruct (dict_truthy h1 (Some c)); [|apply Hc, Hl].
  rewrite (dict_update_other h1 cur c l Hne); apply Hc, Hl.
Qed.

Lemma render_entries_preserved (w : Main.world)
    (entries : list Parser.SubtitleEntry) (h : store) (render_settings : loc) :
  preserved h (fst (Main.render_entries w h entries render_settings)).
Proof.
  revert h; induction entries as [|entry rest IH]; intros h;
    cbn [Main.render_entries].
  - apply unchanged_refl.
  - destruct (Parser.original_text entry) as [[|c text]|]; try apply IH.
    match goal with
    | |- context [Renderer.render_subtitle_image ?a ?b ?c ?d ?e ?f] =>
        pose proof (render_subtitle_image_preserved a b c d e f) as H1
    end.
    destruct (Renderer.render_subtitle_image _ _ _ _ _ _) as [h1 image].
    specialize (IH h1).
    destruct (Main.render_entries w h1 rest render_settings) as [h2 images].
    cbn [fst] in *; unfold preserved in *.
    eapply unchanged_trans; eassumption.
Qed.

End StoreFacts.

(* ================================================================== *)
(** * The settings preparation of process_subtitles *)
(* ================================================================== *)

Section SettingsPreparation.
Import PyStr PyObj SettingsSpec.

(** One deep-merge block changes at most the caller's dictionary, from
    which it removes [key], and the dictionary that [render_settings]
    holds under [key]. *)
Lemma merge_effects_spec (key : string) (h : store) (rs c : loc)
    (cd : dict) :
  h !! c = Some cd ->
  (forall t, deref h rs !! key = Some (VDict t) -> t <> c) ->
  unchanged_except
    (fun l => l = c \/ deref h rs !! key = Some (VDict l))
    h (fst (Main.merge_effects key h rs c))
  /\ (fst (Main.merge_effects key h rs c) !! c = Some cd
      \/ fst (Main.merge_effects key h rs c) !! c = Some (delete key cd))
  /\ (snd (Main.merge_effects key h rs c) = Renderer.Returned ->
      is_Some (cd !! key) -> is_Some (deref h rs !! key) ->
      fst (Main.merge_effects key h rs c) !! c = Some (delete key cd)).
Proof.
  intros Hc Ht.
  pose proof (deref_lookup h c cd Hc) as Hd.
  unfold Main.merge_effects, dict_has; rewrite Hd.
  destruct (bool_decide (is_Some (cd !! key))) eqn:B1;
    [apply bool_decide_eq_true in B1 | apply bool_decide_eq_false in B1];
    cbn [andb].
  2:{ cbn [fst snd]; split; [apply unchanged_refl|].
      split; [left; exact Hc | intros _ H _; contradiction]. }
  destruct (bool_decide (is_Some (deref h rs !! key))) eqn:B2;
    [apply bool_decide_eq_true in B2 | apply bool_decide_eq_false in B2].
  2:{ cbn [fst snd]; split; [apply unchanged_refl|].
      split; [left; exact Hc | intros _ _ H; contradiction]. }
  assert (forall h', h' = h ->
            unchanged_except
              (fun l => l = c \/ deref h rs !! key = Some (VDict l)) h h'
            /\ (h' !! c = Some cd \/ h' !! c = Some (delete key cd))) as Hsame.
  { intros h' ->; split; [apply unchanged_refl | left; exact Hc]. }
  assert (unchanged_except
            (fun l => l = c \/ deref h rs !! key = Some (VDict l))
            h (dict_del h c key)
          /\ dict_del h c key !! c = Some (delete key cd)) as Hdel.
  { split.
    - intros l _ Hl; apply dict_del_other; tauto.
    - rewrite dict_del_same, Hd; reflexivity. }
  destruct (deref h rs !! key) as [v|] eqn:Ev; [|destruct B2; discriminate].
  destruct (cd !! key) as [v'|] eqn:Ev'; [|destruct B1; discriminate].
  destruct v as [| | | |target];
    try (cbn [fst snd]; destruct (Hsame h eq_refl) as [H1 H2];
         split; [exact H1 | split; [exact H2 | discriminate]]).
  destruct v' as [| |s|t|source];
    try (cbn [fst snd]; destruct (Hsame h eq_refl) as [H1 H2];
         split; [exact H1 | split; [exact H2 | discriminate]]).
  - destruct s;
      cbn [fst snd]; [destruct Hdel as [H1 H2]
                     | destruct (Hsame h eq_refl) as [H1 H2]].
    + split; [exact H1 | split; [right; exact H2 | intros _ _ _; exact H2]].
    + split; [exact H1 | split; [exact H2 | discriminate]].
  - destruct t;
      cbn [fst snd]; [destruct Hdel as [H1 H2]
                     | destruct (Hsame h eq_refl) as [H1 H2]].
    + split; [exact H1 | split; [right; exact H2 | intros _ _ _; exact H2]].
    + split; [exact H1 | split; [exact H2 | discriminate]].
  - cbn [fst snd].
    assert (target <> c) as Hne by (apply Ht; reflexivity).
    assert (dict_del (dict_update h target source) c key !! c
            = Some (delete key cd)) as Hc'.
    { rewrite dict_del_same.
      rewrite (deref_eq h _ c (dict_update_other h target source c
                                 (not_eq_sym Hne))), Hd.
      reflexivity. }
    split; [|split; [right; exact Hc' | intros _ _ _; exact Hc']].
    intros l _ Hl.
    rewrite dict_del_other by tauto.
    apply dict_update_other.
    intros ->; apply Hl; right; reflexivity.
Qed.

Lemma merge_step (key : string) (h h1 : store) (rs c : loc) (cd1 : dict) :
  effects_key key -> h !! rs = None -> is_Some (h !! c) ->
  defaults_exist h -> ~ nested_default h c -> preparing h h1 rs c cd1 ->
  (preparing h (fst (Main.merge_effects key h1 rs c)) rs c cd1
   \/ preparing h (fst (Main.merge_effects key h1 rs c)) rs c
        (delete key cd1))
  /\ (snd (Main.merge_effects key h1 rs c) = Renderer.Returned ->
      is_Some (cd1 !! key) ->
      is_Some (deref h Renderer.DEFAULT_SETTINGS !! key) ->
      preparing h (fst (Main.merge_effects key h1 rs c)) rs c
        (delete key cd1)).
Proof.
  intros Hkey Hfresh Hcex Hex Hnc (Hrs & Hc & Hrest).
  pose proof (deref_lookup h1 rs _ Hrs) as Hdrs.
  assert (rs <> c) as Hrsc.
  { intros ->; rewrite Hfresh in Hcex; destruct Hcex as [? ?]; discriminate. }
  assert (forall t, deref h1 rs !! key = Some (VDict t) -> nested_default h t)
    as Hnest.
  { intros t Ht; rewrite Hdrs in Ht; exists key; split; assumption. }
  assert (forall t, deref h1 rs !! key = Some (VDict t) -> t <> c) as Ht.
  { intros t Ht ->; apply Hnc, Hnest, Ht. }
  destruct (merge_effects_spec key h1 rs c cd1 Hc Ht) as (U & C & D).
  set (h2 := fst (Main.merge_effects key h1 rs c)) in *.
  assert (h2 !! rs = Some (deref h Renderer.DEFAULT_SETTINGS)) as Hrs2.
  { rewrite <- Hrs; apply U; [rewrite Hrs; eexists; reflexivity|].
    intros [E|E]; [exact (Hrsc E)|].
    apply Hnest, Hex in E.
    rewrite Hfresh in E; destruct E as [? ?]; discriminate. }
  assert (forall l, is_Some (h !! l) -> l <> c -> ~ nested_default h l ->
            h2 !! l = h !! l) as Hrest2.
  { intros l Hl Hlc Hln.
    rewrite <- (Hrest l Hl Hlc Hln).
    apply U; [rewrite (Hrest l Hl Hlc Hln); exact Hl|].
    intros [E|E]; [exact (Hlc E) | exact (Hln (Hnest l E))]. }
  split.
  - destruct C as [C|C]; [left | right]; repeat split; assumption.
  - intros Hr H1 H2; repeat split; try assumption.
    apply D; [exact Hr | exact H1 | rewrite Hdrs; exact H2].
Qed.

(** The same, naming the dictionary the caller's dictionary has become. *)
Lemma merge_step_dict (key : string) (h h1 : store) (rs c : loc)
    (cd1 : dict) :
  effects_key key -> h !! rs = None -> is_Some (h !! c) ->
  defaults_exist h -> ~ nested_default h c -> preparing h h1 rs c cd1 ->
  exists cd2,
    preparing h (fst (Main.merge_effects key h1 rs c)) rs c cd2
    /\ (forall k, k <> key -> cd2 !! k = cd1 !! k)
    /\ (snd (Main.merge_effects key h1 rs c) = Renderer.Returned ->
        is_Some (cd1 !! key) ->
        is_Some (deref h Renderer.DEFAULT_SETTINGS !! key) ->
        cd2 !! key = None).
Proof.
  intros Hkey Hfresh Hcex Hex Hnc P1.
  destruct (merge_step key h h1 rs c cd1 Hkey Hfresh Hcex Hex Hnc P1)
    as [[S|S] D].
  - exists cd1; split; [exact S|]. split; [reflexivity|].
    intros Hr H1 H2.
    destruct (D Hr H1 H2) as (_ & Hc' & _).
    destruct S as (_ & Hc'' & _).
    rewrite Hc'' in Hc'; injection Hc' as Hcd.
    rewrite Hcd; apply lookup_delete_eq.
  - exists (delete key cd1); split; [exact S|]. split.
    + intros k Hk; apply lookup_delete_ne; congruence.
    + intros _ _ _; apply lookup_delete_eq.
Qed.

(** The statements under [# Prepare settings for renderer], run with a
    caller's dictionary that exists and is not one of the nested default
    dictionaries. *)
Lemma prepare_settings_spec (h : store) (c : loc) (cd : dict) :
  h !! c = Some cd -> defaults_exist h -> ~ nested_default h c ->
  unchanged_except (fun l => l = c \/ nested_default h l)
    h (fst (Main.prepare_settings h (Some c)))
  /\ (exists cd', fst (Main.prepare_settings h (Some c)) !! c = Some cd'
                  /\ agree_off_effects cd cd')
  /\ (is_Some (snd (Main.prepare_settings h (Some c))) ->
      forall key, effects_key key -> is_Some (cd !! key) ->
        is_Some (deref h Renderer.DEFAULT_SETTINGS !! key) ->
        deref (fst (Main.prepare_settings h (Some c))) c !! key = None).
Proof.
  intros Hc Hex Hnc.
  assert (is_Some (h !! c)) as Hcex by (rewrite Hc; eexists; reflexivity).
  unfold Main.prepare_settings.
  pose proof (dict_copy_fresh h Renderer.DEFAULT_SETTINGS) as Hfresh.
  pose proof (dict_copy_lookup h Renderer.DEFAULT_SETTINGS) as Hold.
  assert (fst (dict_copy h Renderer.DEFAULT_SETTINGS)
            !! snd (dict_copy h Renderer.DEFAULT_SETTINGS)
          = Some (deref h Renderer.DEFAULT_SETTINGS)) as Hnew
    by apply lookup_insert_eq.
  destruct (dict_copy h Renderer.DEFAULT_SETTINGS) as [h0 rs].
  cbn [fst snd] in Hfresh, Hold, Hnew.
  assert (preparing h h0 rs c cd) as P0.
  { repeat split; [exact Hnew | rewrite Hold, Hc; auto |].
    intros l Hl _ _; apply Hold, Hl. }
  assert (rs <> c) as Hrsc.
  { intros ->; rewrite Hfresh in Hcex; destruct Hcex as [? ?]; discriminate. }
  (* what is to be shown, from what is known of the final store *)
  assert (forall h1 cd1 (res : option loc),
            h1 !! c = Some cd1 ->
            (forall l, is_Some (h !! l) -> l <> c -> ~ nested_default h l ->
               h1 !! l = h !! l) ->
            (forall k, ~ effects_key k -> cd1 !! k = cd !! k) ->
            (is_Some res ->
             forall key, effects_key key -> is_Some (cd !! key) ->
               is_Some (deref h Renderer.DEFAULT_SETTINGS !! key) ->
               cd1 !! key = None) ->
            unchanged_except (fun l => l = c \/ nested_default h l) h h1
            /\ (exists cd', h1 !! c = Some cd' /\ agree_off_effects cd cd')
            /\ (is_Some res ->
                forall key, effects_key key -> is_Some (cd !! key) ->
                  is_Some (deref h Renderer.DEFAULT_SETTINGS !! key) ->
                  deref h1 c !! key = None)) as Hdone.
  { intros h1 cd1 res P2 P3 Hag Hdel.
    split; [|split].
    - intros l Hl Hn; apply P3; [exact Hl | tauto | tauto].
    - exists cd1; split; assumption.
    - intros Hres key Hkey H1 H2.
      rewrite (deref_lookup h1 c cd1 P2); apply (Hdel Hres key Hkey H1 H2). }
  destruct (dict_truthy h0 (Some c)) eqn:Htruthy.
  2:{ destruct P0 as (_ & P2 & P3).
      apply (Hdone h0 cd (Some rs) P2 P3); [reflexivity|].
      intros _ key _ H1 _.
      unfold dict_truthy in Htruthy.
      rewrite (deref_lookup h0 c cd P2) in Htruthy.
      apply negb_false_iff, bool_decide_eq_true in Htruthy.
      rewrite Htruthy, lookup_empty in H1.
      destruct H1 as [? ?]; discriminate. }
  destruct (merge_step_dict "effects_original" h h0 rs c cd
              (or_introl eq_refl) Hfresh Hcex Hex Hnc P0)
    as (cd1 & P1 & K1 & D1).
  destruct (Main.merge_effects "effects_original" h0 rs c) as [h2 r1].
  cbn [fst snd] in P1, D1.
  assert (forall k, ~ effects_key k -> cd1 !! k = cd !! k) as A1.
  { intros k Hk; apply K1; intros ->; apply Hk; left; reflexivity. }
  destruct r1.
  2:{ destruct P1 as (_ & P2 & P3).
      apply (Hdone h2 cd1 None P2 P3 A1).
      intros [? ?]; discriminate. }
  destruct (merge_step_dict "effects_translation" h h2 rs c cd1
              (or_intror eq_refl) Hfresh Hcex Hex Hnc P1)
    as (cd2 & P2 & K2 & D2).
  destruct (Main.merge_effects "effects_translation" h2 rs c) as [h3 r2].
  cbn [fst snd] in P2, D2.
  assert (forall k, ~ effects_key k -> cd2 !! k = cd !! k) as A2.
  { intros k Hk; rewrite K2; [apply A1, Hk|].
    intros ->; apply Hk; right; reflexivity. }
  destruct r2.
  2:{ destruct P2 as (_ & Q2 & Q3).
      apply (Hdone h3 cd2 None Q2 Q3 A2).
      intros [? ?]; discriminate. }
  destruct P2 as (_ & Q2 & Q3).
  apply (Hdone (dict_update h3 rs c) cd2 (Some rs)).
  - rewrite dict_update_other by congruence; exact Q2.
  - intros l Hl Hlc Hln.
    rewrite dict_update_other; [apply Q3; assumption|].
    intros ->; rewrite Hfresh in Hl; destruct Hl as [? ?]; discriminate.
  - exact A2.
  - intros _ key [-> | ->] H1 H2.
    + rewrite K2 by discriminate.
      apply D1; [reflexivity | exact H1 | exact H2].
    + apply D2; [reflexivity | | exact H2].
      rewrite K1 by discriminate; exact H1.
Qed.

End SettingsPreparation.


(* ================================================================== *)
(** * Properties of the settings *)
(* ================================================================== *)

Section SettingsProperties.
Import PyStr PyObj SettingsSpec.

(** [process_subtitles] changes existing dictionaries only while it
    prepares [render_settings]. *)
Lemma process_subtitles_store (w : Main.world) (h : store) (path : string)
    (custom_settings : option loc) :
  exists h1,
    (h1 = h \/ h1 = fst (Main.prepare_settings h custom_settings))
    /\ preserved h1 (store_after w h path custom_settings).
Proof.
  unfold store_after, Main.process_subtitles.
  destruct (negb (Main.path_exists w path));
    [exists h; split; [left; reflexivity | apply unchanged_refl]|].
  destruct (fst (Parser.parse_subtitle_file (Main.files w) path))
    as [|e entries];
    [exists h; split; [left; reflexivity | apply unchanged_refl]|].
  destruct (match deref h _ !! "output_directory" with
            | Some (VStr s) => Some s
            | Some _ => None
            | None => Some "output_images"%string
            end) as [output_dir|];
    [|exists h; split; [left; reflexivity | apply unchanged_refl]].
  destruct (negb (Main.path_exists w output_dir)
            && negb (Main.makedirs_ok w output_dir));
    [exists h; split; [left; reflexivity | apply unchanged_refl]|].
  exists (fst (Main.prepare_settings h custom_settings)).
  split; [right; reflexivity|].
  destruct (Main.prepare_settings h custom_settings) as [h1 [rs|]];
    cbn [fst]; [|apply unchanged_refl].
  pose proof (render_entries_preserved w (e :: entries) h1 rs) as H.
  destruct (Main.render_entries w h1 (e :: entries) rs) as [h2 images].
  exact H.
Qed.

Lemma merge_effects_absent (key : string) (h : store) (rs c : loc) :
  deref h c !! key = None ->
  Main.merge_effects key h rs c = (h, Renderer.Returned).
Proof.
  intros H; unfold Main.merge_effects, dict_has; rewrite H.
  rewrite bool_decide_eq_false_2 by (intros [? ?]; discriminate).
  reflexivity.
Qed.

(** Without effects keys in the caller's dictionary the preparation
    only creates [render_settings]. *)
Lemma prepare_settings_plain (h : store) (custom_settings : option loc) :
  custom_settings = None
  \/ (exists c, custom_settings = Some c /\ is_Some (h !! c)
        /\ deref h c !! "effects_original" = None
        /\ deref h c !! "effects_translation" = None) ->
  preserved h (fst (Main.prepare_settings h custom_settings)).
Proof.
  intros Hcustom; unfold Main.prepare_settings.
  pose proof (dict_copy_fresh h Renderer.DEFAULT_SETTINGS) as Hfresh.
  pose proof (dict_copy_lookup h Renderer.DEFAULT_SETTINGS) as Hold.
  destruct (dict_copy h Renderer.DEFAULT_SETTINGS) as [h0 rs].
  cbn [fst snd] in Hfresh, Hold.
  assert (preserved h h0) as H0 by (intros l Hl _; apply Hold, Hl).
  destruct Hcustom as [->|(c & -> & Hc & Ho & Ht)]; [exact H0|].
  destruct (dict_truthy h0 (Some c)); [|exact H0].
  assert (deref h0 c = deref h c) as Hd by (apply deref_eq, Hold, Hc).
  rewrite <- Hd in Ho, Ht.
  rewrite (merge_effects_absent _ h0 rs c Ho),
    (merge_effects_absent _ h0 rs c Ht).
  cbn [fst].
  intros l Hl _.
  rewrite dict_update_other; [apply Hold, Hl|].
  intros ->; rewrite Hfresh in Hl; destruct Hl as [? ?]; discriminate.
Qed.

(** C9, as amended.  [render_subtitle_image] changes no dictionary that
    exists when it is called: not the caller's settings, not
    [DEFAULT_SETTINGS], not the nested effects dictionaries.
    [process_subtitles] changes none either when it is called without
    custom settings or with custom settings that have neither effects
    key.  Called with any custom settings dictionary, it leaves every
    dictionary other than that one and the two nested default effects
    dictionaries as it was, and in the caller's dictionary it changes
    nothing but the two effects keys, which the settings preparation
    deletes from it once merged. *)
Theorem settings_frame :
  (forall bk h original_text translated_text filename_base settings,
     preserved h
       (fst (Renderer.render_subtitle_image bk h original_text
               translated_text filename_base settings)))
  /\ (forall w h path custom_settings,
        custom_settings = None
        \/ (exists c, custom_settings = Some c /\ is_Some (h !! c)
              /\ deref h c !! "effects_original" = None
              /\ deref h c !! "effects_translation" = None) ->
        preserved h (store_after w h path custom_settings))
  /\ (forall w h path c cd,
        h !! c = Some cd -> defaults_exist h -> ~ nested_default h c ->
        unchanged_except (fun l => l = c \/ nested_default h l)
          h (store_after w h path (Some c))
        /\ (exists cd', store_after w h path (Some c) !! c = Some cd'
                       /\ agree_off_effects cd cd'))
  /\ (forall h c cd render_settings,
        h !! c = Some cd -> defaults_exist h -> ~ nested_default h c ->
        snd (Main.prepare_settings h (Some c)) = Some render_settings ->
        forall key, effects_key key -> is_Some (cd !! key) ->
          is_Some (deref h Renderer.DEFAULT_SETTINGS !! key) ->
          deref (fst (Main.prepare_settings h (Some c))) c !! key = None).
Proof.
  split; [|split; [|split]].
  - intros; apply render_subtitle_image_preserved.
  - intros w h path custom_settings Hcustom.
    destruct (process_subtitles_store w h path custom_settings)
      as (h1 & [-> | ->] & H1); [exact H1|].
    eapply unchanged_trans; [|exact H1].
    apply prepare_settings_plain, Hcustom.
  - intros w h path c cd Hc Hex Hnc.
    destruct (process_subtitles_store w h path (Some c))
      as (h1 & Hh1 & H1).
    assert (unchanged_except (fun l => l = c \/ nested_default h l) h h1
            /\ exists cd', h1 !! c = Some cd' /\ agree_off_effects cd cd')
      as (U & cd' & Hc' & Hag).
    { destruct Hh1 as [-> | ->].
      - split; [apply unchanged_refl|].
        exists cd; split; [exact Hc | intros k _; reflexivity].
      - destruct (prepare_settings_spec h c cd Hc Hex Hnc) as (U & C & _).
        split; assumption. }
    split.
    + eapply unchanged_trans; [exact U|].
      eapply unchanged_weaken; [|exact H1]. intros l [].
    + exists cd'; split; [|exact Hag].
      rewrite <- Hc'; apply H1; [rewrite Hc'; eexists; reflexivity | tauto].
  - intros h c cd rs Hc Hex Hnc Hres.
    destruct (prepare_settings_spec h c cd Hc Hex Hnc) as (_ & _ & D).
    apply D; rewrite Hres; eexists; reflexivity.
Qed.

Lemma settings_frame_witness :
  store_after Samples.pair_world Samples.plain_store "subs.txt"
    (Some Samples.CUSTOM) !! Renderer.DEFAULT_EFFECTS_ORIGINAL
  = Samples.plain_store !! Renderer.DEFAULT_EFFECTS_ORIGINAL
  /\ store_after Samples.pair_world Samples.plain_store "subs.txt"
       (Some Samples.CUSTOM) !! Samples.CUSTOM
     = Samples.plain_store !! Samples.CUSTOM.
Proof.
  assert (exists c, Some Samples.CUSTOM = Some c
            /\ is_Some (Samples.plain_store !! c)
            /\ deref Samples.plain_store c !! "effects_original" = None
            /\ deref Samples.plain_store c !! "effects_translation" = None)
    as Hplain.
  { exists Samples.CUSTOM; split; [reflexivity|].
    split; [eexists; reflexivity|]. split; reflexivity. }
  pose proof (proj1 (proj2 settings_frame) Samples.pair_world
                Samples.plain_store "subs.txt"%string (Some Samples.CUSTOM)
                (or_intror Hplain)) as H.
  split; apply H; try (eexists; reflexivity); intros [].
Defined.

(** C9 as stated fails for [process_subtitles] called with custom
    settings that carry an effects key.  With
    [{"effects_original": {"outline_width": 5}}] the nested dictionary of
    [DEFAULT_SETTINGS] has [outline_width] 5 instead of 2 after the call,
    and the caller's dictionary has lost its [effects_original] key. *)
Lemma process_subtitles_changes_settings :
  deref Samples.custom_store Renderer.DEFAULT_EFFECTS_ORIGINAL
    !! "outline_width" = Some (VInt 2)
  /\ deref (store_after Samples.pair_world Samples.custom_store "subs.txt"
              (Some Samples.CUSTOM)) Renderer.DEFAULT_EFFECTS_ORIGINAL
       !! "outline_width" = Some (VInt 5)
  /\ deref Samples.custom_store Samples.CUSTOM !! "effects_original"
     = Some (VDict Samples.CUSTOM_EFFECTS)
  /\ deref (store_after Samples.pair_world Samples.custom_store "subs.txt"
              (Some Samples.CUSTOM)) Samples.CUSTOM !! "effects_original"
     = None
  /\ snd (Main.process_subtitles Samples.pair_world Samples.custom_store
            "subs.txt" (Some Samples.CUSTOM)) = Renderer.Returned.
Proof. repeat split; vm_compute; reflexivity. Qed.

(** The typed view of the module-level dictionary. *)
Lemma default_settings_decoded :
  Renderer.settings_of_dict Renderer.module_store
    (deref Renderer.module_store Renderer.DEFAULT_SETTINGS)
  = Some Renderer.default_settings.
Proof. vm_compute; reflexivity. Qed.

End SettingsProperties.
